(** * compgraph: rows, streams, mappers, reducers, joiners and the executor

    A shallow embedding of [compgraph/operations.py] and [compgraph/graph.py].

    - A Python value is a [value]; the model covers [None], [bool], [int] and
      [str] (strings are sequences of code points below 256).  Floating point
      values and nested sequences are outside the model.
    - A row ([TRow = dict[str, Any]]) is an association list in insertion
      order without duplicate columns, as a Python dict is.
    - A generator is its trace [gen]: the rows it yields, in order, and the
      exception that ended it, if any.
    - The order in which a Python [set] is iterated is a parameter
      ([set_order]); only [OuterJoiner] iterates sets. *)

From Stdlib Require Import List String Ascii ZArith Lia Bool Permutation Sorted.
From Stdlib Require Import OrderedTypeEx.
From stdpp Require Import gmap.
Import ListNotations.

Local Open Scope string_scope.
Local Open Scope list_scope.

#[local] Unset Default Proof Using.

(** ** Values *)

Inductive value : Type :=
| VNone
| VBool (b : bool)
| VInt (z : Z)
| VStr (s : string).

(** [bool] is a subclass of [int]: [True == 1], [False < 1]. *)
Definition num_of (v : value) : option Z :=
  match v with
  | VBool b => Some (if b then 1%Z else 0%Z)
  | VInt z => Some z
  | _ => None
  end.

(** Python's [x == y]; never raises on these values. *)
Definition py_eq (x y : value) : bool :=
  match x, y with
  | VNone, VNone => true
  | VStr s, VStr t => String.eqb s t
  | _, _ =>
      match num_of x, num_of y with
      | Some a, Some b => Z.eqb a b
      | _, _ => false
      end
  end.

(** Python's [x < y]; [None] stands for [TypeError]. *)
Definition py_lt (x y : value) : option bool :=
  match x, y with
  | VStr s, VStr t => Some (String.ltb s t)
  | _, _ =>
      match num_of x, num_of y with
      | Some a, Some b => Some (Z.ltb a b)
      | _, _ => None
      end
  end.

(** Python's [x >= y]. *)
Definition py_ge (x y : value) : option bool :=
  match x, y with
  | VStr s, VStr t => Some (String.leb t s)
  | _, _ =>
      match num_of x, num_of y with
      | Some a, Some b => Some (Z.leb b a)
      | _, _ => None
      end
  end.

(** Truth value of an object, as used by [all(...)]. *)
Definition truthy (v : value) : bool :=
  match v with
  | VNone => false
  | VBool b => b
  | VInt z => negb (Z.eqb z 0)
  | VStr s => negb (String.eqb s "")
  end.

(** ** Tuples of key values

    Tuple comparison looks for the first position where the items differ
    (by [==]) and compares only there; tuples that agree on the common
    prefix are ordered by length. *)

Fixpoint tuple_eq (a b : list value) : bool :=
  match a, b with
  | [], [] => true
  | x :: a', y :: b' => py_eq x y && tuple_eq a' b'
  | _, _ => false
  end.

Fixpoint tuple_lt (a b : list value) : option bool :=
  match a, b with
  | [], [] => Some false
  | [], _ :: _ => Some true
  | _ :: _, [] => Some false
  | x :: a', y :: b' => if py_eq x y then tuple_lt a' b' else py_lt x y
  end.

Fixpoint tuple_ge (a b : list value) : option bool :=
  match a, b with
  | [], [] => Some true
  | [], _ :: _ => Some false
  | _ :: _, [] => Some true
  | x :: a', y :: b' => if py_eq x y then tuple_ge a' b' else py_ge x y
  end.

(** ** Rows *)

Definition row : Type := list (string * value).

(** [k in row] *)
Fixpoint dict_mem (r : row) (k : string) : bool :=
  match r with
  | [] => false
  | (k', _) :: r' => if String.eqb k' k then true else dict_mem r' k
  end.

(** [row.get(k)] as an option. *)
Fixpoint dict_get (r : row) (k : string) : option value :=
  match r with
  | [] => None
  | (k', v) :: r' => if String.eqb k' k then Some v else dict_get r' k
  end.

(** [row[k] = v]: an existing column keeps its position, a new one goes last. *)
Fixpoint dict_set (r : row) (k : string) (v : value) : row :=
  match r with
  | [] => [(k, v)]
  | (k', v') :: r' =>
      if String.eqb k' k then (k', v) :: r' else (k', v') :: dict_set r' k v
  end.

(** [{**a, **b}] *)
Definition dict_update (a b : row) : row :=
  fold_left (fun acc kv => dict_set acc (fst kv) (snd kv)) b a.

(** [dict(items)] and dict comprehensions: later items overwrite earlier. *)
Definition dict_of_items (items : list (string * value)) : row :=
  dict_update [] items.

(** [row.keys()] *)
Definition dict_keys (r : row) : list string := map fst r.

(** Dict equality [a == b]: same columns, [==] values; order is irrelevant. *)
Definition row_eqb (a b : row) : bool :=
  Nat.eqb (List.length a) (List.length b)
  && forallb (fun kv => match dict_get b (fst kv) with
                        | Some v => py_eq (snd kv) v
                        | None => false
                        end) a.

Definition str_mem (k : string) (l : list string) : bool :=
  existsb (String.eqb k) l.

(** ** Exceptions and generator traces *)

Inductive exc : Type := KeyError | TypeError | AttributeError.

Inductive result (A : Type) : Type :=
| Ok (a : A)
| Raise (e : exc).
Arguments Ok {A} a.
Arguments Raise {A} e.

Definition bind {A B} (r : result A) (f : A -> result B) : result B :=
  match r with Ok a => f a | Raise e => Raise e end.

(** What a generator does until it ends: the items yielded and, when it
    ended by an exception, that exception. *)
Record gen (A : Type) : Type := Gen { yielded : list A; raised : option exc }.
Arguments Gen {A} yielded raised.
Arguments yielded {A} g.
Arguments raised {A} g.

Definition done {A} : gen A := Gen [] None.
Definition raise {A} (e : exc) : gen A := Gen [] (Some e).

(** [yield] each of [rs], then continue as [g]. *)
Definition yield_then {A} (rs : list A) (g : gen A) : gen A :=
  Gen (rs ++ yielded g) (raised g).

(** Run [g]; when it ends normally continue as [k]. *)
Definition seq_gen {A} (g k : gen A) : gen A :=
  match raised g with
  | Some e => g
  | None => Gen (yielded g ++ yielded k) (raised k)
  end.

(** A finite iterable that ends normally. *)
Definition of_list {A} (l : list A) : gen A := Gen l None.

(** [row[k]] *)
Definition getitem (r : row) (k : string) : result value :=
  match dict_get r k with
  | Some v => Ok v
  | None => Raise KeyError
  end.

(** [tuple(row[k] for k in keys)] *)
Fixpoint key_of (keys : list string) (r : row) : result (list value) :=
  match keys with
  | [] => Ok []
  | k :: keys' =>
      bind (getitem r k) (fun v =>
      bind (key_of keys' r) (fun vs => Ok (v :: vs)))
  end.

(** Every key column is present in the row. *)
Definition has_keys (keys : list string) (r : row) : Prop :=
  Forall (fun k => dict_mem r k = true) keys.

Definition try_ {A B} (r : result A) (k : A -> gen B) : gen B :=
  match r with
  | Ok a => k a
  | Raise e => raise e
  end.

(** ** Joiners

    [a_suffix] and [b_suffix] are the fields [_a_suffix] and [_b_suffix] set
    by [Joiner.__init__] (defaults ["_1"] and ["_2"]); [keys] is the first
    argument of [__call__].  The two inputs are finite iterables. *)

(** [set(row_a.keys()).intersection(set(row_b.keys()))] minus [set(keys)];
    the set is only ever tested for membership. *)
Definition overlapping_columns (keys : list string) (row_a row_b : row)
  : list string :=
  List.filter (fun k => negb (str_mem k keys))
    (List.filter (fun k => dict_mem row_b k) (dict_keys row_a)).

(** [{f"{k}{suffix}" if k in overlapping_columns else k: v for k, v in r.items()}] *)
Definition rename_columns (overlap : list string) (suffix : string) (r : row)
  : row :=
  dict_of_items
    (map (fun kv => (if str_mem (fst kv) overlap
                     then String.append (fst kv) suffix else fst kv,
                     snd kv)) r).

Section Joiners.
Variable keys : list string.
Variables a_suffix b_suffix : string.

(** [len(matched) > 0 and tuple(matched[0][k] for k in keys) == key] *)
Definition buffer_holds (matched : list row) (key : list value)
  : result bool :=
  match matched with
  | [] => Ok false
  | m :: _ => bind (key_of keys m) (fun km => Ok (tuple_eq km key))
  end.

(** [len(matched) == 0 or tuple(matched[0][k] for k in keys) == key] *)
Definition buffer_accepts (matched : list row) (key : list value)
  : result bool :=
  match matched with
  | [] => Ok true
  | m :: _ => bind (key_of keys m) (fun km => Ok (tuple_eq km key))
  end.

(** The [for row_b_matched in matched_rows_b] loop of [InnerJoiner]. *)
Definition inner_emit (overlap : list string) (row_a : row)
    (matched : list row) : list row :=
  map (fun row_b_matched =>
         dict_update (rename_columns overlap a_suffix row_a)
                     (rename_columns overlap b_suffix row_b_matched))
      matched.

(** The second [while True] of [InnerJoiner.__call__]: the right input is
    exhausted, the remaining left rows meet the last buffered block. *)
Fixpoint inner_tail (overlap : list string) (matched : list row)
    (row_a : row) (rest_a : list row) {struct rest_a} : gen row :=
  try_ (key_of keys row_a) (fun key_a =>
  try_ (buffer_holds matched key_a) (fun hit =>
  yield_then (if hit then inner_emit overlap row_a matched else [])
    match rest_a with
    | [] => done
    | a' :: rest_a' => inner_tail overlap matched a' rest_a'
    end)).

(** The first [while True] of [InnerJoiner.__call__].  Each turn advances
    one of the two iterators.  The test [elif key_a >= key_b] is reached
    only after [key_a < key_b] returned [False], and then holds (lemma
    [tuple_lt_false_ge] below), so it is the [else] branch here. *)
Fixpoint inner_loop (overlap : list string) (row_a : row)
    (rest_a : list row) {struct rest_a}
  : row -> list row -> list row -> gen row :=
  fix scan_b (row_b : row) (rest_b : list row) (matched : list row)
      {struct rest_b} : gen row :=
    try_ (key_of keys row_a) (fun key_a =>
    try_ (key_of keys row_b) (fun key_b =>
    match tuple_lt key_a key_b with
    | None => raise TypeError
    | Some true =>
        try_ (buffer_holds matched key_a) (fun hit =>
        yield_then (if hit then inner_emit overlap row_a matched else [])
          match rest_a with
          | [] => done
          | a' :: rest_a' => inner_loop overlap a' rest_a' row_b rest_b matched
          end)
    | Some false =>
        try_ (buffer_accepts matched key_b) (fun same =>
        let matched' := if same then matched ++ [row_b] else [row_b] in
        match rest_b with
        | [] => inner_tail overlap matched' row_a rest_a
        | b' :: rest_b' => scan_b b' rest_b' matched'
        end)
    end)).

Definition InnerJoiner (rows_a rows_b : list row) : gen row :=
  match rows_a with
  | [] => done
  | row_a :: rest_a =>
      match rows_b with
      | [] => done
      | row_b :: rest_b =>
          inner_loop (overlapping_columns keys row_a row_b)
                     row_a rest_a row_b rest_b []
      end
  end.

(** The inner [while key_a >= key_b] of [LeftJoiner.__call__], started with
    the buffer [matched].  It returns the right cursor and the buffer it
    leaves.  When the right iterator is exhausted [row_b] stays the last
    row read. *)
Fixpoint left_drain (key_a : list value) (row_b : row) (rest_b : list row)
    (matched : list row) {struct rest_b}
  : result (row * list row * list row) :=
  bind (key_of keys row_b) (fun key_b =>
  match tuple_ge key_a key_b with
  | None => Raise TypeError
  | Some false => Ok (row_b, rest_b, matched)
  | Some true =>
      let matched' :=
        if tuple_eq key_a key_b then matched ++ [row_b] else matched in
      match rest_b with
      | [] => Ok (row_b, [], matched')
      | b' :: rest_b' => left_drain key_a b' rest_b' matched'
      end
  end).

(** The outer [while True] of [LeftJoiner.__call__]; the buffer is empty at
    the start of every turn. *)
Fixpoint left_loop (row_a : row) (rest_a : list row) (row_b : row)
    (rest_b : list row) {struct rest_a} : gen row :=
  try_ (key_of keys row_a) (fun key_a =>
  try_ (left_drain key_a row_b rest_b []) (fun st =>
  let '(row_b', rest_b', matched) := st in
  yield_then
    match matched with
    | [] => [row_a]
    | _ => map (fun row_b_matched => dict_update row_a row_b_matched) matched
    end
    match rest_a with
    | [] => done
    | a' :: rest_a' => left_loop a' rest_a' row_b' rest_b'
    end)).

(** [overlapping_columns] is computed by the source and never read. *)
Definition LeftJoiner (rows_a rows_b : list row) : gen row :=
  match rows_a with
  | [] => done
  | row_a :: rest_a =>
      match rows_b with
      | [] => done
      | row_b :: rest_b => left_loop row_a rest_a row_b rest_b
      end
  end.

(** The inner [while key_b >= key_a] of [RightJoiner.__call__]. *)
Fixpoint right_drain (key_b : list value) (row_a : row) (rest_a : list row)
    (matched : list row) {struct rest_a}
  : result (row * list row * list row) :=
  bind (key_of keys row_a) (fun key_a =>
  match tuple_ge key_b key_a with
  | None => Raise TypeError
  | Some false => Ok (row_a, rest_a, matched)
  | Some true =>
      let matched' :=
        if tuple_eq key_a key_b then matched ++ [row_a] else matched in
      match rest_a with
      | [] => Ok (row_a, [], matched')
      | a' :: rest_a' => right_drain key_b a' rest_a' matched'
      end
  end).

Fixpoint right_loop (row_b : row) (rest_b : list row) (row_a : row)
    (rest_a : list row) {struct rest_b} : gen row :=
  try_ (key_of keys row_b) (fun key_b =>
  try_ (right_drain key_b row_a rest_a []) (fun st =>
  let '(row_a', rest_a', matched) := st in
  yield_then
    match matched with
    | [] => [row_b]
    | _ => map (fun row_a_matched => dict_update row_a_matched row_b) matched
    end
    match rest_b with
    | [] => done
    | b' :: rest_b' => right_loop b' rest_b' row_a' rest_a'
    end)).

(** [key_a] of the first left row is computed before the loop. *)
Definition RightJoiner (rows_a rows_b : list row) : gen row :=
  match rows_a with
  | [] => done
  | row_a :: rest_a =>
      match rows_b with
      | [] => done
      | row_b :: rest_b =>
          try_ (key_of keys row_a) (fun _ =>
          right_loop row_b rest_b row_a rest_a)
      end
  end.

(** [{tuple(row[k] for k in keys): row for row in rows}]: a dict keyed by
    tuples; a later row with an equal key replaces the earlier one. *)
Fixpoint index_set (d : list (list value * row)) (key : list value) (r : row)
  : list (list value * row) :=
  match d with
  | [] => [(key, r)]
  | (key', r') :: d' =>
      if tuple_eq key' key then (key', r) :: d'
      else (key', r') :: index_set d' key r
  end.

Fixpoint index_get (d : list (list value * row)) (key : list value)
  : option row :=
  match d with
  | [] => None
  | (key', r) :: d' => if tuple_eq key' key then Some r else index_get d' key
  end.

Fixpoint index_rows (d : list (list value * row)) (rows : list row)
  : result (list (list value * row)) :=
  match rows with
  | [] => Ok d
  | r :: rows' =>
      bind (key_of keys r) (fun key => index_rows (index_set d key r) rows')
  end.

(** [set(s) | set(t)] for duplicate-free [s] and [t]: the elements of the
    union, listed in order of first insertion.  This is the content of the
    set, not the order in which Python iterates it. *)
Definition set_union {A} (eqb : A -> A -> bool) (s t : list A) : list A :=
  fold_left (fun acc x => if existsb (eqb x) acc then acc else acc ++ [x]) t s.

(** [x] put at position [n] of [l], at the end when [l] is shorter. *)
Fixpoint insert_at {A} (n : nat) (x : A) (l : list A) {struct l} : list A :=
  match l with
  | [] => [x]
  | y :: l' =>
      match n with
      | O => x :: l
      | S n' => y :: insert_at n' x l'
      end
  end.

(** The elements of [s] in the order coded by [code]: each element is put
    into the arrangement of the elements after it, at the position its code
    says.  The result is a permutation of [s], and every permutation of [s]
    has a code. *)
Fixpoint arrange {A} (code : list nat) (s : list A) : list A :=
  match s with
  | [] => []
  | x :: s' => insert_at (List.hd 0 code) x (arrange (List.tl code) s')
  end.

(** Python iterates a set in the order of its hash table, which follows the
    hashes of the elements (for strings they change from one run of the
    interpreter to the next) and not the order of insertion.  The order is a
    parameter of the model: a [set_order] gives, for the elements of a set
    of key tuples or of column names, the code of the order in which the
    set is iterated. *)
Record set_order : Type := SetOrder {
  key_order : list (list value) -> list nat;
  column_order : list string -> list nat
}.

(** [for x in s] over a set with the elements [s]. *)
Definition set_iter {A} (order : list A -> list nat) (s : list A) : list A :=
  arrange (order s) s.

(** The order of first insertion. *)
Definition insertion_order : set_order :=
  SetOrder (fun _ => []) (fun _ => []).

(** [{k: row_a.get(k, row_b.get(k)) for k in set(row_a.keys()) | set(row_b.keys())}] *)
Definition outer_merge (order : set_order) (row_a row_b : row) : row :=
  dict_of_items
    (map (fun k => (k, match dict_get row_a k with
                       | Some v => v
                       | None => match dict_get row_b k with
                                 | Some v => v
                                 | None => VNone
                                 end
                       end))
         (set_iter (column_order order)
                   (set_union String.eqb (dict_keys row_a) (dict_keys row_b)))).

(** [OuterJoiner.__call__]: both inputs are read into dicts keyed by the key
    tuple, then one row is yielded per key of [all_keys], in the iteration
    order of that set. *)
Definition OuterJoiner (order : set_order) (rows_a rows_b : list row)
  : gen row :=
  try_ (index_rows [] rows_a) (fun dict_a =>
  try_ (index_rows [] rows_b) (fun dict_b =>
  let all_keys :=
    set_iter (key_order order)
             (set_union tuple_eq (map fst dict_a) (map fst dict_b)) in
  of_list
    (map (fun key =>
            outer_merge order
              (match index_get dict_a key with Some r => r | None => [] end)
              (match index_get dict_b key with Some r => r | None => [] end))
         all_keys))).

End Joiners.

(** ** Reducers *)

(** [itertools.groupby(rows, key)]: a group collects consecutive rows whose
    key equals the key of the row that opened it ([tgtkey]); the group is
    reported with that first key. *)
Section Groupby.
Context {K : Type}.
Variable key_eqb : K -> K -> bool.
Variable keyf : row -> K.

Fixpoint groupby_from (tgtkey : K) (group : list row) (rows : list row)
  : list (K * list row) :=
  match rows with
  | [] => [(tgtkey, group)]
  | r :: rows' =>
      if key_eqb (keyf r) tgtkey
      then groupby_from tgtkey (group ++ [r]) rows'
      else (tgtkey, group) :: groupby_from (keyf r) [r] rows'
  end.

Definition groupby (rows : list row) : list (K * list row) :=
  match rows with
  | [] => []
  | r :: rows' => groupby_from (keyf r) [r] rows'
  end.
End Groupby.

(** [[x.get(val) for val in group_key]]: a missing column reads as [None]. *)
Definition get_key (group_key : list string) (x : row) : list value :=
  map (fun val => match dict_get x val with Some v => v | None => VNone end)
      group_key.

(** [{**dict(zip(group_key, key)), self.column: n}] *)
Definition count_row (column : string) (group_key : list string)
    (key : list value) (n : nat) : row :=
  dict_set (dict_of_items (combine group_key key)) column (VInt (Z.of_nat n)).

(** [Count.__call__]: [all(key)] gates the emission of a group. *)
Definition Count (column : string) (group_key : list string)
    (rows : list row) : gen row :=
  of_list
    (flat_map (fun kg =>
                 if forallb truthy (fst kg)
                 then [count_row column group_key (fst kg)
                                 (List.length (snd kg))]
                 else [])
              (groupby tuple_eq (get_key group_key) rows)).

(** ** Strings *)

(** [str.isspace] on code points below 256; the regex class [\s] and
    [str.strip()] use the same test. *)
Definition is_space (c : ascii) : bool :=
  let n := nat_of_ascii c in
  ((9 <=? n)%nat && (n <=? 13)%nat) || ((28 <=? n)%nat && (n <=? 32)%nat)
  || (n =? 133)%nat || (n =? 160)%nat.

Fixpoint drop_while (p : ascii -> bool) (l : list ascii) : list ascii :=
  match l with
  | [] => []
  | c :: l' => if p c then drop_while p l' else l
  end.

(** [s.strip()] *)
Definition strip (s : string) : string :=
  string_of_list_ascii
    (rev (drop_while is_space
            (rev (drop_while is_space (list_ascii_of_string s))))).

(** [s[i:j]] for [0 <= i] and [0 <= j]. *)
Definition slice (s : string) (i j : nat) : string :=
  String.substring i (j - i) s.

(** ** Split

    The compiled pattern is represented by what [pattern.finditer] returns on
    a text: the spans [(match.start(), match.end())] of the successive
    matches. *)

Definition pattern : Type := string -> list (nat * nat).

(** The body of the [for match in pattern.finditer(...)] loop and the
    statement after it. *)
Fixpoint split_loop (column : string) (r : row) (text : string)
    (last_end : nat) (matches : list (nat * nat)) : list row :=
  match matches with
  | [] =>
      if (last_end <? String.length text)%nat
      then [dict_set r column
              (VStr (strip (slice text last_end (String.length text))))]
      else []
  | (start, end_) :: matches' =>
      (if negb (start =? 0)%nat
       then [dict_set r column (VStr (strip (slice text last_end start)))]
       else [])
      ++ split_loop column r text end_ matches'
  end.

(** [Split.__call__]; [finditer] raises [TypeError] on a value that is not a
    string. *)
Definition Split (column : string) (separator : pattern) (r : row) : gen row :=
  match dict_get r column with
  | None => of_list [r]
  | Some (VStr text) => of_list (split_loop column r text 0 (separator text))
  | Some _ => raise TypeError
  end.

(** A pattern that is a single character class, such as the default
    separator [\s]: every character of the class is one match. *)
Fixpoint class_finditer (cls : ascii -> bool) (pos : nat) (s : string)
  : list (nat * nat) :=
  match s with
  | EmptyString => []
  | String c s' =>
      (if cls c then [(pos, S pos)] else []) ++ class_finditer cls (S pos) s'
  end.

Definition whitespace : pattern := class_finditer is_space 0.

(** The tokens of the split of [text] at the given matches: the pieces before
    the first match, between consecutive matches, and after the last one.
    This follows the wording of the specification, not the code. *)
Fixpoint spec_tokens (text : string) (last_end : nat)
    (matches : list (nat * nat)) : list string :=
  match matches with
  | [] => [slice text last_end (String.length text)]
  | (start, end_) :: matches' =>
      slice text last_end start :: spec_tokens text end_ matches'
  end.

(** The tokens the loop of [Split] keeps: a token that ends at a match is
    kept unless that match starts at position 0; the text after the last
    match is kept when it is not empty. *)
Fixpoint kept_tokens (text : string) (last_end : nat)
    (matches : list (nat * nat)) : list string :=
  match matches with
  | [] =>
      if (last_end <? String.length text)%nat
      then [slice text last_end (String.length text)] else []
  | (start, end_) :: matches' =>
      (if (start =? 0)%nat then [] else [slice text last_end start])
      ++ kept_tokens text end_ matches'
  end.

Definition nonempty (s : string) : bool := negb (String.eqb s "").

(** ** External sort *)

(** Modelled from the spec: [compgraph/external_sort.py], the module that
    defines the [ExternalSort] operation installed by [Graph.sort], is not
    among the sources.  Section 4.6 describes it: rows are ordered by the
    tuple [(row[k] for k in keys)], compared lexicographically; values of
    compatible kinds compare natively; the input is cut into chunks of at
    most [B] rows, each chunk is sorted by a stable sort and becomes a run,
    and the runs are merged by repeatedly taking the least head, a tie going
    to the run with the smaller index.  Comparisons across kinds "are not
    expected"; the model orders the kinds [None], numbers, strings so that
    the comparison is total. *)
Definition kind_rank (v : value) : nat :=
  match v with
  | VNone => 0
  | VBool _ | VInt _ => 1
  | VStr _ => 2
  end.

(** Modelled from the spec: the native comparison of two key values used by
    the missing [external_sort.py] (section 4.6). *)
Definition value_compare (x y : value) : comparison :=
  match x, y with
  | VStr s, VStr t => String.compare s t
  | _, _ =>
      match num_of x, num_of y with
      | Some a, Some b => Z.compare a b
      | _, _ => Nat.compare (kind_rank x) (kind_rank y)
      end
  end.

(** Modelled from the spec: the lexicographic comparison of key tuples of
    the missing [external_sort.py] (section 4.6). *)
Fixpoint tuple_compare (a b : list value) : comparison :=
  match a, b with
  | [], [] => Eq
  | [], _ :: _ => Lt
  | _ :: _, [] => Gt
  | x :: a', y :: b' =>
      match value_compare x y with
      | Eq => tuple_compare a' b'
      | c => c
      end
  end.

Definition is_lt (c : comparison) : bool :=
  match c with Lt => true | _ => false end.

(** A row together with its key tuple. *)
Definition keyed : Type := list value * row.

(** Modelled from the spec: the order of the missing [ExternalSort] on rows,
    ascending on the key tuple. *)
Definition key_le (x y : keyed) : bool :=
  match tuple_compare (fst x) (fst y) with
  | Gt => false
  | _ => true
  end.

(** Modelled from the spec: the key tuples [(row[k] for k in keys)] that the
    missing [ExternalSort] orders by; [KeyError] when a key column is
    absent. *)
Fixpoint with_keys (keys : list string) (rows : list row)
  : result (list keyed) :=
  match rows with
  | [] => Ok []
  | r :: rows' =>
      bind (key_of keys r) (fun key =>
      bind (with_keys keys rows') (fun items => Ok ((key, r) :: items)))
  end.

(** Modelled from the spec: step 1 of the missing [ExternalSort], the input
    cut into chunks of [B] rows (the last one may be shorter). *)
Fixpoint chunks (B : nat) (cur : list keyed) (items : list keyed)
  : list (list keyed) :=
  match items with
  | [] => match cur with [] => [] | _ => [cur] end
  | x :: items' =>
      if (B <=? List.length (cur ++ [x]))%nat
      then (cur ++ [x]) :: chunks B [] items'
      else chunks B (cur ++ [x]) items'
  end.

(** Modelled from the spec: the stable in-memory sort of one chunk in the
    missing [ExternalSort]; a row goes before the first row that is not
    smaller. *)
Fixpoint insert_run (x : keyed) (run : list keyed) : list keyed :=
  match run with
  | [] => [x]
  | y :: run' => if key_le x y then x :: run else y :: insert_run x run'
  end.

(** Modelled from the spec: a chunk of the missing [ExternalSort] turned
    into a sorted run. *)
Definition sort_chunk (chunk : list keyed) : list keyed :=
  fold_right insert_run [] chunk.

(** Modelled from the spec: step 2 of the missing [ExternalSort], one pop of
    the min-heap keyed by (tuple, run index): the least head among the runs,
    the first such run on a tie, and the runs without it. *)
Fixpoint pop_min (runs : list (list keyed))
  : option (keyed * list (list keyed)) :=
  match runs with
  | [] => None
  | [] :: runs' =>
      match pop_min runs' with
      | None => None
      | Some (y, rest) => Some (y, [] :: rest)
      end
  | (x :: run) :: runs' =>
      match pop_min runs' with
      | None => Some (x, run :: runs')
      | Some (y, rest) =>
          if key_le x y then Some (x, run :: runs')
          else Some (y, (x :: run) :: rest)
      end
  end.

(** Modelled from the spec: the k-way merge of the missing [ExternalSort];
    [fuel] bounds the number of pops and is the number of rows. *)
Fixpoint kway_merge (fuel : nat) (runs : list (list keyed)) : list keyed :=
  match fuel with
  | O => []
  | S fuel' =>
      match pop_min runs with
      | None => []
      | Some (x, runs') => x :: kway_merge fuel' runs'
      end
  end.

(** Modelled from the spec: [ExternalSort(keys)] of the missing
    [external_sort.py], the operation installed by [Graph.sort(keys)], with
    chunk size [B]. *)
Definition ExternalSort (B : nat) (keys : list string) (rows : list row)
  : gen row :=
  try_ (with_keys keys rows) (fun items =>
  of_list (map snd (kway_merge (List.length items)
                               (map sort_chunk (chunks B [] items))))).

(** ** Mappers that assign into the row they receive

    To tell a row object from a copy of it, rows live in a store of objects
    and a stream carries references.  A mapper receives the reference of a
    row and the store, and returns the store it leaves and the references it
    yields. *)

Definition loc : Type := nat.

Definition ref_mapper : Type := loc -> gmap loc row -> gmap loc row * gen loc.

(** [string.punctuation] *)
Definition is_punctuation (c : ascii) : bool :=
  let n := nat_of_ascii c in
  ((33 <=? n)%nat && (n <=? 47)%nat) || ((58 <=? n)%nat && (n <=? 64)%nat)
  || ((91 <=? n)%nat && (n <=? 96)%nat) || ((123 <=? n)%nat && (n <=? 126)%nat).

(** [s.translate(str.maketrans("", "", string.punctuation))] *)
Fixpoint remove_punctuation (s : string) : string :=
  match s with
  | EmptyString => EmptyString
  | String c s' =>
      if is_punctuation c then remove_punctuation s'
      else String c (remove_punctuation s')
  end.

(** [str.lower] on code points below 256. *)
Definition lower_char (c : ascii) : ascii :=
  let n := nat_of_ascii c in
  if ((65 <=? n)%nat && (n <=? 90)%nat)
     || ((192 <=? n)%nat && (n <=? 222)%nat && negb (n =? 215)%nat)
  then ascii_of_nat (n + 32) else c.

Fixpoint lower (s : string) : string :=
  match s with
  | EmptyString => EmptyString
  | String c s' => String (lower_char c) (lower s')
  end.

(** [FilterPunctuation.__call__]: a value without [translate] raises
    [AttributeError].  A reference always denotes an object; the first case
    is never reached. *)
Definition FilterPunctuation (column : string) : ref_mapper :=
  fun r h =>
    match h !! r with
    | None => (h, raise TypeError)
    | Some row_ =>
        match getitem row_ column with
        | Raise e => (h, raise e)
        | Ok (VStr s) =>
            let filtered := VStr (remove_punctuation s) in
            (<[r := dict_set row_ column filtered]> h, of_list [r])
        | Ok _ => (h, raise AttributeError)
        end
    end.

(** [LowerCase.__call__] *)
Definition LowerCase (column : string) : ref_mapper :=
  fun r h =>
    match h !! r with
    | None => (h, raise TypeError)
    | Some row_ =>
        match getitem row_ column with
        | Raise e => (h, raise e)
        | Ok (VStr s) =>
            (<[r := dict_set row_ column (VStr (lower s))]> h, of_list [r])
        | Ok _ => (h, raise AttributeError)
        end
    end.

(** [BinaryOperation.__call__]; [operation] is the caller's function of the
    row. *)
Definition BinaryOperation (operation : row -> result value)
    (column : string) : ref_mapper :=
  fun r h =>
    match h !! r with
    | None => (h, raise TypeError)
    | Some row_ =>
        match operation row_ with
        | Raise e => (h, raise e)
        | Ok v => (<[r := dict_set row_ column v]> h, of_list [r])
        end
    end.

(** [Map.__call__] on a stream of references:
    [for row in rows: yield from self.mapper(row)]. *)
Fixpoint MapRefs (mapper : ref_mapper) (rows : list loc) (h : gmap loc row)
  : gmap loc row * gen loc :=
  match rows with
  | [] => (h, done)
  | r :: rows' =>
      let (h1, g1) := mapper r h in
      match raised g1 with
      | Some _ => (h1, g1)
      | None =>
          let (h2, g2) := MapRefs mapper rows' h1 in
          (h2, Gen (yielded g1 ++ yielded g2) (raised g2))
      end
  end.

(** ** Graph and executor *)

(** [**kwargs] of [run]: each named source is a factory of a row stream. *)
Definition kwargs : Type := list (string * gen row).

Fixpoint kwargs_get (kw : kwargs) (name : string) : option (gen row) :=
  match kw with
  | [] => None
  | (n, g) :: kw' => if String.eqb n name then Some g else kwargs_get kw' name
  end.

(** An [Operation] is what its [__call__] does with the positional streams
    and the keyword arguments. *)
Definition Operation : Type := list (gen row) -> kwargs -> gen row.

(** [ReadIterFactory.__call__]: [kwargs[self.name]()] *)
Definition ReadIterFactory (name : string) : Operation :=
  fun _ kw =>
    match kwargs_get kw name with
    | Some g => g
    | None => raise KeyError
    end.

(** [for row in rows: yield from mapper(row)], where the upstream [rows] may
    itself end by an exception. *)
Fixpoint map_rows (mapper : row -> gen row) (rows : list row)
    (upstream_end : option exc) : gen row :=
  match rows with
  | [] => Gen [] upstream_end
  | r :: rows' => seq_gen (mapper r) (map_rows mapper rows' upstream_end)
  end.

(** [Map.__call__] for a mapper that does not assign into its argument;
    called without a positional stream it raises [TypeError]. *)
Definition Map (mapper : row -> gen row) : Operation :=
  fun args _ =>
    match args with
    | [] => raise TypeError
    | rows :: _ => map_rows mapper (yielded rows) (raised rows)
    end.

(** A [Graph] node: the field [operation] ([None] until a builder sets it)
    and the upstream [graphs]. *)
#[local] Set Warnings "-register-all".
Inductive Graph : Type :=
| mkGraph (operation : option Operation) (graphs : list Graph).

Definition operation (g : Graph) : option Operation :=
  match g with mkGraph op _ => op end.

Definition graphs (g : Graph) : list Graph :=
  match g with mkGraph _ gs => gs end.

(** [Graph.run]; the generator body starts at the first [next]. *)
Fixpoint run (g : Graph) (kw : kwargs) : gen row :=
  match g with
  | mkGraph None _ => raise TypeError
  | mkGraph (Some op) [] => op [] kw
  | mkGraph (Some op) [g0] => op [run g0 kw] []
  | mkGraph (Some op) (g0 :: g1 :: _) => op [run g0 kw; run g1 kw] []
  end.

(** The builders [graph_from_iter] and [map]. *)
Definition graph_from_iter (name : string) : Graph :=
  mkGraph (Some (ReadIterFactory name)) [].

Definition graph_map (self : Graph) (mapper : row -> gen row) : Graph :=
  mkGraph (Some (Map mapper)) [self].

(** What the three assigning mappers store back into a row, when they
    succeed on it. *)
Definition assigned_column (column : string) (f : string -> string) (r : row)
  : option row :=
  match dict_get r column with
  | Some (VStr s) => Some (dict_set r column (VStr (f s)))
  | _ => None
  end.

Definition assigned_result (operation : row -> result value)
    (column : string) (r : row) : option row :=
  match operation r with
  | Ok v => Some (dict_set r column v)
  | Raise _ => None
  end.

(** Consuming [Map(mapper)] over the source references [rows] in the store
    [h] yields those same references, creates no object, and leaves every
    source row replaced by [f] of what it was; other objects are untouched. *)
Definition modified_in_place (mapper : ref_mapper) (f : row -> option row)
    (rows : list loc) (h : gmap loc row) : Prop :=
  exists h' : gmap loc row,
    MapRefs mapper rows h = (h', of_list rows)
    /\ dom h' = dom h
    /\ (forall r row_, In r rows -> h !! r = Some row_ -> h' !! r = f row_)
    /\ (forall l, ~ In l rows -> h' !! l = h !! l).

Definition key_le_prop (x y : keyed) : Prop := key_le x y = true.

(** Rows whose key tuple equals [k]. *)
Definition same_key (k : list value) (x : keyed) : bool := tuple_eq (fst x) k.

Definition row_has_key (keys : list string) (k : list value) (r : row) : bool :=
  match key_of keys r with
  | Ok k' => tuple_eq k' k
  | Raise _ => false
  end.

(** [r1] may stand before [r2] in a stream that is non-decreasing on the key
    tuple: the tuple of [r2] is not smaller than the tuple of [r1]. *)
Definition key_not_after (keys : list string) (r1 r2 : row) : Prop :=
  exists k1 k2,
    key_of keys r1 = Ok k1 /\ key_of keys r2 = Ok k2
    /\ tuple_compare k1 k2 <> Gt.

(** The rows of [B] whose key tuple equals the key tuple of [a]: the block of
    [B] that [a] joins with. *)
Definition matching_block (keys : list string) (a : row) (B : list row)
  : list row :=
  match key_of keys a with
  | Ok k => List.filter (row_has_key keys k) B
  | Raise _ => []
  end.

(** Every left row paired with every row of its block, left rows in input
    order, right rows in input order within a left row. *)
Definition block_product (merge : row -> row -> row) (keys : list string)
    (A B : list row) : list row :=
  flat_map (fun a => map (merge a) (matching_block keys a B)) A.

(** Python compares the key tuples of [a] and [b] without [TypeError]. *)
Definition comparable (keys : list string) (a b : row) : Prop :=
  forall ka kb, key_of keys a = Ok ka -> key_of keys b = Ok kb ->
                tuple_lt ka kb <> None.

(** Two emitted rows correspond under the duality of [left_join(A, B)] and
    [right_join(B, A)]: both are the same row of [A], emitted alone, or they
    are the merges of one row [a] of [A] and one row [b] of [B] with equal
    key tuples, the first with the columns of [b] written over those of [a]
    ([{**a, **b}]), the second with the columns of [a] written over those
    of [b] ([{**b, **a}]). *)
Definition dual_rows (keys : list string) (A B : list row) (r r' : row)
  : Prop :=
  (In r A /\ r' = r)
  \/ exists a b ka kb,
       In a A /\ In b B
       /\ key_of keys a = Ok ka /\ key_of keys b = Ok kb
       /\ tuple_eq ka kb = true
       /\ r = dict_update a b /\ r' = dict_update b a.

(** ** Mappers that build their output from the row *)

(** [DummyMapper.__call__] *)
Definition DummyMapper (r : row) : gen row := of_list [r].

(** [Filter.__call__]; [condition] is the caller's function of the row, which
    may raise. *)
Definition Filter (condition : row -> result bool) (r : row) : gen row :=
  try_ (condition r) (fun keep => if keep then of_list [r] else done).

(** [{col: row[col] for col in self.columns if col in row}] *)
Definition project_row (columns : list string) (r : row) : row :=
  dict_of_items
    (map (fun col => (col, match dict_get r col with
                           | Some v => v
                           | None => VNone
                           end))
         (List.filter (dict_mem r) columns)).

(** [Project.__call__] *)
Definition Project (columns : list string) (r : row) : gen row :=
  of_list [project_row columns r].

(** The count a row carries in column [out], 0 when there is none. *)
Definition count_of (out : string) (r : row) : Z :=
  match dict_get r out with
  | Some (VInt n) => n
  | _ => 0%Z
  end.

Definition total_count (out : string) (rows : list row) : Z :=
  fold_right (fun r acc => (count_of out r + acc)%Z) 0%Z rows.

(** Every character of [s] satisfies [p]. *)
Fixpoint all_chars (p : ascii -> bool) (s : string) : bool :=
  match s with
  | EmptyString => true
  | String c s' => p c && all_chars p s'
  end.

(** [s] contains no whitespace character. *)
Definition no_space (s : string) : bool :=
  all_chars (fun c => negb (is_space c)) s.

(** The key tuple of [r1] is strictly smaller than the key tuple of [r2]. *)
Definition key_before (keys : list string) (r1 r2 : row) : Prop :=
  exists k1 k2,
    key_of keys r1 = Ok k1 /\ key_of keys r2 = Ok k2
    /\ tuple_compare k1 k2 = Lt.

(** A left join: every left row merged with each row of its block, or alone
    when the block is empty. *)
Definition left_join_rows (keys : list string) (A B : list row) : list row :=
  flat_map (fun a => match matching_block keys a B with
                     | [] => [a]
                     | block => map (fun b => dict_update a b) block
                     end) A.

(** ** Reduce and reducers over group streams

    [itertools.groupby] hands out each group as an iterator over the shared
    input.  A group is therefore a stream: the rows of the group and, when
    reading the row after them failed (its key raised, or the input itself
    ended by an exception), that exception.  Only the last group read can
    carry one. *)
Section LazyGroups.
Context {K : Type}.
Variable key_eqb : K -> K -> bool.
Variable keyf : row -> result K.

(** The groups after the one opened with key [tgtkey], whose rows read so far
    are [group]; [tail] is how the input ends. *)
Fixpoint lazy_groups_from (tgtkey : K) (group : list row) (rows : list row)
    (tail : option exc) : list (K * gen row) :=
  match rows with
  | [] => [(tgtkey, Gen group tail)]
  | r :: rows' =>
      match keyf r with
      | Raise e => [(tgtkey, Gen group (Some e))]
      | Ok k =>
          if key_eqb k tgtkey
          then lazy_groups_from tgtkey (group ++ [r]) rows' tail
          else (tgtkey, of_list group) :: lazy_groups_from k [r] rows' tail
      end
  end.

(** [for key, group in groups: yield from body(key, group)].  When the body
    returns without having read its group to the end, [groupby] reads the
    rest of the group before the next turn, and meets the exception the
    group carries. *)
Fixpoint for_groups (body : K -> gen row -> gen row)
    (groups : list (K * gen row)) : gen row :=
  match groups with
  | [] => done
  | (k, g) :: rest =>
      let out := body k g in
      match raised out with
      | Some _ => out
      | None =>
          match raised g with
          | Some e => Gen (yielded out) (Some e)
          | None => seq_gen out (for_groups body rest)
          end
      end
  end.

(** [for key, group in groupby(rows, keyf): yield from body(key, group)] *)
Definition for_groupby (body : K -> gen row -> gen row) (rows : gen row)
  : gen row :=
  match yielded rows with
  | [] => Gen [] (raised rows)
  | r :: rows' =>
      try_ (keyf r) (fun k =>
      for_groups body (lazy_groups_from k [r] rows' (raised rows)))
  end.
End LazyGroups.

(** A reducer: [__call__(group_key, rows)]. *)
Definition Reducer : Type := list string -> gen row -> gen row.

(** [Reduce.__call__]: the groups are cut by [[row[k] for k in self.keys]]. *)
Definition reduce_rows (reducer : Reducer) (keys : list string)
    (rows : gen row) : gen row :=
  for_groupby tuple_eq (key_of keys)
    (fun _ group_rows => reducer keys group_rows) rows.

(** [Reduce] as an operation; called without a positional stream it raises
    [TypeError]. *)
Definition Reduce (reducer : Reducer) (keys : list string) : Operation :=
  fun args _ =>
    match args with
    | [] => raise TypeError
    | rows :: _ => reduce_rows reducer keys rows
    end.

(** The builder [Graph.reduce]. *)
Definition graph_reduce (self : Graph) (reducer : Reducer)
    (keys : list string) : Graph :=
  mkGraph (Some (Reduce reducer keys)) [self].

(** [FirstReducer.__call__]: [for row in rows: yield row; break] *)
Definition FirstReducer : Reducer :=
  fun _ rows =>
    match yielded rows with
    | r :: _ => of_list [r]
    | [] => Gen [] (raised rows)
    end.

(** [Count.__call__] on a group stream: a group whose key values are all
    truthy is read to its end by [sum(1 for _ in group)] before its row is
    yielded. *)
Definition CountReducer (column : string) : Reducer :=
  fun group_key rows =>
    for_groupby tuple_eq (fun x => Ok (get_key group_key x))
      (fun key group =>
         if forallb truthy key
         then match raised group with
              | Some e => raise e
              | None => of_list [count_row column group_key key
                                           (List.length (yielded group))]
              end
         else done)
      rows.

(** Python's [x + y] on the values of the model. *)
Definition py_add (x y : value) : result value :=
  match x, y with
  | VStr s, VStr t => Ok (VStr (String.append s t))
  | _, _ =>
      match num_of x, num_of y with
      | Some a, Some b => Ok (VInt (a + b))
      | _, _ => Raise TypeError
      end
  end.

(** [sum(row[column] for row in group)], from [total]. *)
Fixpoint sum_column (column : string) (total : value) (rows : list row)
    (tail : option exc) : result value :=
  match rows with
  | [] => match tail with Some e => Raise e | None => Ok total end
  | r :: rows' =>
      bind (getitem r column) (fun v =>
      bind (py_add total v) (fun total' =>
      sum_column column total' rows' tail))
  end.

(** [Sum.__call__] *)
Definition Sum (column : string) : Reducer :=
  fun group_key rows =>
    for_groupby tuple_eq (key_of group_key)
      (fun group_val group =>
         try_ (sum_column column (VInt 0) (yielded group) (raised group))
              (fun total =>
                 of_list [dict_set (dict_of_items (combine group_key group_val))
                                   column total]))
      rows.

(** The first row of every run of rows with equal keys, after a run with key
    [tgtkey]. *)
Fixpoint first_rows (kf : row -> list value) (tgtkey : list value)
    (rows : list row) : list row :=
  match rows with
  | [] => []
  | r :: rows' =>
      if tuple_eq (kf r) tgtkey then first_rows kf tgtkey rows'
      else r :: first_rows kf (kf r) rows'
  end.

(** * Properties *)

(** ** Equality and order of key values *)

Lemma py_eq_refl (x : value) : py_eq x x = true.
Proof.
  destruct x as [| [] | z | s]; simpl; auto using Z.eqb_refl, String.eqb_refl.
Qed.

Lemma py_eq_sym (x y : value) : py_eq x y = py_eq y x.
Proof.
  destruct x as [| [] | z | s], y as [| [] | z' | s']; simpl;
    auto using Z.eqb_sym, String.eqb_sym.
Qed.

Lemma py_eq_trans (x y z : value) :
  py_eq x y = true -> py_eq y z = true -> py_eq x z = true.
Proof.
  destruct x as [| [] | a | s], y as [| [] | b | t], z as [| [] | c | u];
    cbn [py_eq num_of]; try congruence;
    rewrite ?Z.eqb_eq, ?String.eqb_eq; try congruence; lia.
Qed.

Lemma tuple_eq_refl (a : list value) : tuple_eq a a = true.
Proof. induction a; simpl; rewrite ?py_eq_refl; auto. Qed.

Lemma tuple_eq_sym (a b : list value) : tuple_eq a b = tuple_eq b a.
Proof.
  revert b; induction a as [| x a IH]; intros [| y b]; simpl; auto.
  now rewrite py_eq_sym, IH.
Qed.

Lemma tuple_eq_trans (a b c : list value) :
  tuple_eq a b = true -> tuple_eq b c = true -> tuple_eq a c = true.
Proof.
  revert b c; induction a as [| x a IH]; intros [| y b] [| z c]; simpl;
    try congruence.
  rewrite !andb_true_iff. intros [H1 H2] [H3 H4]. split.
  - eapply py_eq_trans; eauto.
  - eapply IH; eauto.
Qed.

Lemma tuple_eq_false_l (a b c : list value) :
  tuple_eq a b = true -> tuple_eq c a = false -> tuple_eq c b = false.
Proof.
  intros Hab Hca. destruct (tuple_eq c b) eqn:Hcb; auto.
  rewrite tuple_eq_sym in Hab.
  now rewrite (tuple_eq_trans _ _ _ Hcb Hab) in Hca.
Qed.

(** ** C8: a graph without an operator *)

(** C8. Running a graph whose root node has no operator raises the error of
    [Graph.run] for a missing operator ([TypeError], the specification's
    ENoSource) as soon as the stream is pulled; nothing was yielded before,
    so the caller sees the error and no row is taken back.  This holds for
    any upstream graphs and any named sources. *)
Theorem run_without_operator :
  forall (g : Graph) (kw : kwargs),
    operation g = None ->
    run g kw = raise TypeError
    /\ yielded (run g kw) = [] /\ raised (run g kw) = Some TypeError.
Proof.
  intros [op gs] kw Hop. simpl in Hop. subst op.
  repeat split; destruct gs; reflexivity.
Qed.

Lemma run_without_operator_witness :
  let g := mkGraph None [graph_from_iter "test"] in
  operation g = None
  /\ run g [("test", of_list [[("count", VInt 1)]])] = raise TypeError.
Proof.
  split; [reflexivity |].
  apply (run_without_operator (mkGraph None [graph_from_iter "test"])).
  reflexivity.
Defined.

(** ** C6: Count *)

Section GroupbyFacts.
Variable group_key : list string.
Let keyf := get_key group_key.

Lemma groupby_from_block (g : list row) :
  forall (t : list value) (acc post : list row),
    Forall (fun r => tuple_eq (keyf r) t = true) g ->
    (forall q, hd_error post = Some q -> tuple_eq (keyf q) t = false) ->
    groupby_from tuple_eq keyf t acc (g ++ post)
    = (t, acc ++ g) :: groupby tuple_eq keyf post.
Proof.
  induction g as [| r g IH]; intros t acc post Hg Hpost; simpl.
  - rewrite app_nil_r. destruct post as [| q post]; simpl; auto.
    now rewrite (Hpost q eq_refl).
  - inversion Hg as [| ? ? Hr Hg']; subst.
    rewrite Hr, IH by assumption.
    now rewrite <- app_assoc.
Qed.

Lemma groupby_from_boundary (pre : list row) :
  forall (t : list value) (acc l2 : list row),
    acc <> [] ->
    Forall (fun r => tuple_eq (keyf r) t = true) acc ->
    (forall p q, last (acc ++ pre) = Some p -> hd_error l2 = Some q ->
                 tuple_eq (keyf q) (keyf p) = false) ->
    groupby_from tuple_eq keyf t acc (pre ++ l2)
    = groupby_from tuple_eq keyf t acc pre ++ groupby tuple_eq keyf l2.
Proof.
  induction pre as [| p pre IH]; intros t acc l2 Hne Hacc Hb; simpl.
  - destruct l2 as [| q l2]; simpl; auto.
    destruct (last acc) as [p |] eqn:Hlast.
    + assert (Hp : tuple_eq (keyf p) t = true).
      { apply last_Some in Hlast as [acc' ->].
        apply Forall_app in Hacc as [_ Hacc].
        now inversion Hacc. }
      rewrite app_nil_r in Hb.
      rewrite (tuple_eq_false_l _ _ _ Hp (Hb p q Hlast eq_refl)).
      reflexivity.
    + apply last_None in Hlast. contradiction.
  - destruct (tuple_eq (keyf p) t) eqn:Hp.
    + apply IH.
      * now destruct acc.
      * apply Forall_app; split; auto.
      * intros p' q. rewrite <- app_assoc. simpl. apply Hb.
    + simpl. f_equal. apply IH.
      * discriminate.
      * constructor; auto. apply tuple_eq_refl.
      * intros p' q Hl. apply Hb.
        rewrite last_app. change ([p] ++ pre) with (p :: pre) in Hl.
        now rewrite Hl.
Qed.

Lemma groupby_app (pre l2 : list row) :
  (forall p q, last pre = Some p -> hd_error l2 = Some q ->
               tuple_eq (keyf q) (keyf p) = false) ->
  groupby tuple_eq keyf (pre ++ l2)
  = groupby tuple_eq keyf pre ++ groupby tuple_eq keyf l2.
Proof.
  intros Hb. destruct pre as [| p pre]; simpl; auto.
  apply groupby_from_boundary.
  - discriminate.
  - constructor; auto. apply tuple_eq_refl.
  - exact Hb.
Qed.
End GroupbyFacts.

Lemma forallb_truthy_get_key (group_key : list string) (r : row) (c : string) :
  In c group_key ->
  match dict_get r c with Some v => truthy v = false | None => True end ->
  forallb truthy (get_key group_key r) = false.
Proof.
  intros Hin Hc. unfold get_key.
  induction group_key as [| k ks IH]; simpl in *; [contradiction |].
  destruct Hin as [-> | Hin].
  - destruct (dict_get r c); [now rewrite Hc | reflexivity].
  - rewrite (IH Hin). apply andb_false_r.
Qed.

(** C6. Let the input of [Count(out)] be [pre ++ group ++ post], where
    [group] is a maximal run of rows with equal grouping-key values (the row
    before it and the row after it, if any, have a different key).  Then
    [Count] emits for this run exactly one row [{...group_keys, out: |group|}]
    when every grouping-key value is truthy and nothing otherwise, between
    what it emits for [pre] and for [post]; and a grouping-key value that is
    missing, null or otherwise falsy makes the run one that emits nothing. *)
Theorem Count_one_row_per_truthy_group :
  forall (out : string) (group_key : list string)
         (pre : list row) (r0 : row) (g post : list row),
    let k := get_key group_key r0 in
    Forall (fun r => tuple_eq (get_key group_key r) k = true) g ->
    (forall p, last pre = Some p -> tuple_eq k (get_key group_key p) = false) ->
    (forall q, hd_error post = Some q ->
               tuple_eq (get_key group_key q) k = false) ->
    Count out group_key (pre ++ (r0 :: g) ++ post)
    = of_list (yielded (Count out group_key pre)
               ++ (if forallb truthy k
                   then [count_row out group_key k (List.length (r0 :: g))]
                   else [])
               ++ yielded (Count out group_key post))
    /\ (forall c, In c group_key ->
                  match dict_get r0 c with
                  | Some v => truthy v = false
                  | None => True
                  end ->
                  forallb truthy k = false).
Proof.
  intros out group_key pre r0 g post k Hg Hpre Hpost. split.
  - unfold Count, of_list. cbn [yielded]. f_equal.
    rewrite groupby_app.
    + rewrite flat_map_app. f_equal.
      change ((r0 :: g) ++ post) with (r0 :: (g ++ post)).
      cbn [groupby]. fold k.
      rewrite groupby_from_block by assumption.
      reflexivity.
    + intros p q Hp Hq. simpl in Hq. injection Hq as <-. now apply Hpre.
  - intros c Hin Hc. now apply forallb_truthy_get_key with c.
Qed.

Lemma Count_one_row_per_truthy_group_witness :
  Count "d" ["a"]
    ([[("a", VInt 1); ("b", VInt 4)]]
     ++ ([("a", VInt 2); ("b", VInt 5)] :: [[("a", VInt 2); ("b", VInt 6)]])
     ++ [[("b", VInt 7)]])
  = of_list [[("a", VInt 1); ("d", VInt 1)]; [("a", VInt 2); ("d", VInt 2)]].
Proof.
  apply (Count_one_row_per_truthy_group "d" ["a"]
           [[("a", VInt 1); ("b", VInt 4)]]
           [("a", VInt 2); ("b", VInt 5)]
           [[("a", VInt 2); ("b", VInt 6)]]
           [[("b", VInt 7)]]).
  - repeat constructor.
  - intros p Hp. injection Hp as <-. reflexivity.
  - intros q Hq. injection Hq as <-. reflexivity.
Defined.

(** ** C5: Split *)

Lemma split_loop_kept (column : string) (r : row) (text : string)
    (matches : list (nat * nat)) :
  forall last_end,
    split_loop column r text last_end matches
    = map (fun token => dict_set r column (VStr (strip token)))
          (kept_tokens text last_end matches).
Proof.
  induction matches as [| [start end_] ms IH]; intros last_end; simpl.
  - destruct (last_end <? String.length text)%nat; reflexivity.
  - rewrite map_app, IH. destruct (start =? 0)%nat; reflexivity.
Qed.

Lemma kept_tokens_sub (text : string) (matches : list (nat * nat)) :
  forall last_end,
    sublist (kept_tokens text last_end matches)
            (spec_tokens text last_end matches).
Proof.
  induction matches as [| [start end_] ms IH]; intros last_end; simpl.
  - destruct (last_end <? String.length text)%nat.
    + reflexivity.
    + apply sublist_nil_l.
  - destruct (start =? 0)%nat; simpl.
    + apply sublist_cons, IH.
    + apply sublist_skip, IH.
Qed.

Lemma substring_zero_length (s : string) :
  forall n, String.substring n 0 s = "".
Proof.
  induction s as [| c s IH]; intros [| n]; simpl; auto.
Qed.

Lemma kept_tokens_nonempty (text : string) (matches : list (nat * nat)) :
  forall last_end,
    List.filter nonempty (kept_tokens text last_end matches)
    = List.filter nonempty (spec_tokens text last_end matches).
Proof.
  induction matches as [| [start end_] ms IH]; intros last_end; simpl.
  - destruct (last_end <? String.length text)%nat eqn:Hlt; simpl; auto.
    apply Nat.ltb_ge in Hlt. unfold slice.
    replace (String.length text - last_end) with 0 by lia.
    now rewrite substring_zero_length.
  - rewrite List.filter_app, IH.
    destruct (start =? 0)%nat eqn:H0; simpl.
    + apply Nat.eqb_eq in H0. subst start. unfold slice. simpl.
      now rewrite substring_zero_length.
    + destruct (nonempty (slice text last_end start)); reflexivity.
Qed.

(** What [Split] yields, row by row.  For a row whose column [col] holds a
    string it yields one row per kept token of the split of [row[col]] at
    the matches of [sep], each a copy of the row with [col] replaced by the
    trimmed token.  Every non-empty token is kept; an empty token is skipped
    only when it precedes a match at position 0 or is the text after the
    last match.  A row without [col] is yielded unchanged. *)
Theorem Split_rows :
  forall (col : string) (sep : pattern) (r : row),
    (forall text,
        dict_get r col = Some (VStr text) ->
        let kept := kept_tokens text 0 (sep text) in
        Split col sep r
        = of_list (map (fun token => dict_set r col (VStr (strip token))) kept)
        /\ List.filter nonempty kept
           = List.filter nonempty (spec_tokens text 0 (sep text))
        /\ sublist kept (spec_tokens text 0 (sep text)))
    /\ (dict_get r col = None -> Split col sep r = of_list [r]).
Proof.
  intros col sep r. split.
  - intros text Hget kept. unfold Split. rewrite Hget.
    repeat split.
    + now rewrite split_loop_kept.
    + apply kept_tokens_nonempty.
    + apply kept_tokens_sub.
  - intros Hget. unfold Split. now rewrite Hget.
Qed.

Lemma Split_rows_witness :
  Split "text" whitespace [("doc_id", VInt 1); ("text", VStr "hello  world ")]
  = of_list [[("doc_id", VInt 1); ("text", VStr "hello")];
             [("doc_id", VInt 1); ("text", VStr "")];
             [("doc_id", VInt 1); ("text", VStr "world")]]
  /\ Split "text" whitespace [("doc_id", VInt 1)]
     = of_list [[("doc_id", VInt 1)]].
Proof.
  pose proof (Split_rows "text" whitespace
                [("doc_id", VInt 1); ("text", VStr "hello  world ")]) as [H _].
  pose proof (Split_rows "text" whitespace [("doc_id", VInt 1)]) as [_ H'].
  split.
  - exact (proj1 (H "hello  world " eq_refl)).
  - exact (H' eq_refl).
Defined.

(** C5. [Split] lets empty tokens through.  On
    [{"doc_id": 1, "text": "a  b"}] with the default separator the split has
    the tokens ["a"], [""], ["b"]; [Split] yields three rows, the second
    with an empty [text], where C5 asks for one row per non-empty token.
    The guards [match.start() != 0] and [last_end < len(...)] test
    positions, not the token: they drop the empty token before a separator
    at position 0 and the empty text after the last separator, and miss the
    empty token between two adjacent separators; on ["  a"] the second
    leading separator already yields one. *)
Theorem Split_emits_empty_token :
  spec_tokens "a  b" 0 (whitespace "a  b") = ["a"; ""; "b"]
  /\ yielded (Split "text" whitespace
                [("doc_id", VInt 1); ("text", VStr "a  b")])
     = [[("doc_id", VInt 1); ("text", VStr "a")];
        [("doc_id", VInt 1); ("text", VStr "")];
        [("doc_id", VInt 1); ("text", VStr "b")]]
  /\ yielded (Split "text" whitespace
                [("doc_id", VInt 1); ("text", VStr "a  b")])
     <> map (fun token =>
               dict_set [("doc_id", VInt 1); ("text", VStr "a  b")] "text"
                        (VStr (strip token)))
            (List.filter nonempty (spec_tokens "a  b" 0 (whitespace "a  b")))
  /\ Split "text" whitespace [("text", VStr "  a")]
     = of_list [[("text", VStr "")]; [("text", VStr "a")]]
  /\ Split "text" whitespace [("text", VStr " a ")]
     = of_list [[("text", VStr "a")]].
Proof.
  split; [reflexivity |]. split; [reflexivity |]. split.
  - vm_compute. discriminate.
  - split; reflexivity.
Qed.

(** ** C9: mappers that assign into their argument *)

Lemma MapRefs_modifies (mapper : ref_mapper) (f : row -> option row) :
  (forall r h row_ row',
      h !! r = Some row_ -> f row_ = Some row' ->
      mapper r h = (<[r := row']> h, of_list [r])) ->
  forall (rows : list loc) (h : gmap loc row),
    List.NoDup rows ->
    (forall r, In r rows -> exists row_, h !! r = Some row_ /\ is_Some (f row_)) ->
    modified_in_place mapper f rows h.
Proof.
  intros Hm rows. induction rows as [| r rows IH]; intros h Hnd Hrows.
  - exists h. simpl. repeat split; auto. intros r row_ [].
  - inversion Hnd as [| ? ? Hnotin Hnd']; subst.
    destruct (Hrows r (or_introl eq_refl)) as (row_ & Hr & row' & Hf).
    destruct (IH (<[r := row']> h) Hnd') as (h2 & Hrun & Hdom & Hin & Hout).
    { intros r2 Hr2. destruct (Hrows r2 (or_intror Hr2)) as (row2 & H2 & Hf2).
      exists row2. split; auto.
      rewrite lookup_insert_ne; auto. intros ->. contradiction. }
    exists h2. simpl. rewrite (Hm r h row_ row' Hr Hf). simpl.
    rewrite Hrun. simpl. repeat split.
    + rewrite Hdom. apply dom_insert_lookup_L. eauto.
    + intros r2 row2 [<- | Hr2] H2.
      * rewrite (Hout r Hnotin), lookup_insert_eq. congruence.
      * apply Hin; auto. rewrite lookup_insert_ne; auto.
        intros ->. contradiction.
    + intros l Hl. rewrite Hout by tauto.
      apply lookup_insert_ne. intros ->. apply Hl. now left.
Qed.

(** C9. [FilterPunctuation], [LowerCase] and [BinaryOperation] assign into
    the row object they receive and yield that same object: a call stores
    the new column value at the reference it was given and yields that
    reference.  Hence, once the stream of [Map(mapper)] over the caller's
    source rows is consumed, the stream has carried the caller's own
    objects, no row object was created, and each source row holds the
    filtered, lower-cased or computed value in [column].  The two string
    mappers need a string in [column]; [BinaryOperation] needs only that
    [operation] returns, whether the rows have [column] or not. *)
Theorem mappers_assign_in_place :
  forall (column : string) (operation : row -> result value)
         (rows : list loc) (h : gmap loc row),
    List.NoDup rows ->
    (forall r, In r rows -> is_Some (h !! r)) ->
    (forall r row_ s,
        h !! r = Some row_ -> dict_get row_ column = Some (VStr s) ->
        FilterPunctuation column r h
        = (<[r := dict_set row_ column (VStr (remove_punctuation s))]> h,
           of_list [r])
        /\ LowerCase column r h
           = (<[r := dict_set row_ column (VStr (lower s))]> h, of_list [r]))
    /\ (forall r row_ v,
          h !! r = Some row_ -> operation row_ = Ok v ->
          BinaryOperation operation column r h
          = (<[r := dict_set row_ column v]> h, of_list [r]))
    /\ ((forall r row_, In r rows -> h !! r = Some row_ ->
                        exists s, dict_get row_ column = Some (VStr s)) ->
        modified_in_place (FilterPunctuation column)
          (assigned_column column remove_punctuation) rows h
        /\ modified_in_place (LowerCase column)
             (assigned_column column lower) rows h)
    /\ ((forall r row_, In r rows -> h !! r = Some row_ ->
                        exists v, operation row_ = Ok v) ->
        modified_in_place (BinaryOperation operation column)
          (assigned_result operation column) rows h).
Proof.
  intros column operation rows h Hnd Hrows.
  split; [| split; [| split]].
  - intros r row_ s Hr Hs. split.
    + unfold FilterPunctuation, getitem. now rewrite Hr, Hs.
    + unfold LowerCase, getitem. now rewrite Hr, Hs.
  - intros r row_ v Hr Hv. unfold BinaryOperation. now rewrite Hr, Hv.
  - intros Hstr. split.
    + apply MapRefs_modifies; auto.
      * intros r h0 row_ row' Hr Hf. unfold FilterPunctuation, getitem.
        unfold assigned_column in Hf. rewrite Hr.
        destruct (dict_get row_ column) as [[| | |s] |]; try discriminate.
        now injection Hf as <-.
      * intros r Hr. destruct (Hrows r Hr) as [row_ H1].
        destruct (Hstr r row_ Hr H1) as [s H2].
        exists row_. split; auto. unfold assigned_column. rewrite H2. eauto.
    + apply MapRefs_modifies; auto.
      * intros r h0 row_ row' Hr Hf. unfold LowerCase, getitem.
        unfold assigned_column in Hf. rewrite Hr.
        destruct (dict_get row_ column) as [[| | |s] |]; try discriminate.
        now injection Hf as <-.
      * intros r Hr. destruct (Hrows r Hr) as [row_ H1].
        destruct (Hstr r row_ Hr H1) as [s H2].
        exists row_. split; auto. unfold assigned_column. rewrite H2. eauto.
  - intros Hop. apply MapRefs_modifies; auto.
    + intros r h0 row_ row' Hr Hf. unfold BinaryOperation.
      unfold assigned_result in Hf. rewrite Hr.
      destruct (operation row_); try discriminate.
      now injection Hf as <-.
    + intros r Hr. destruct (Hrows r Hr) as [row_ H1].
      destruct (Hop r row_ Hr H1) as [v H2].
      exists row_. split; auto. unfold assigned_result. rewrite H2. eauto.
Qed.

Lemma mappers_assign_in_place_witness :
  let h : gmap loc row :=
    <[0 := [("text", VStr "Hello, World!")]]> (<[1 := [("text", VStr "B.")]]> ∅) in
  let columns : row -> result value :=
    fun r => Ok (VInt (Z.of_nat (List.length r))) in
  List.NoDup [0; 1]
  /\ modified_in_place (LowerCase "text") (assigned_column "text" lower)
       [0; 1] h
  /\ MapRefs (LowerCase "text") [0; 1] h
     = (<[0 := [("text", VStr "hello, world!")]]>
          (<[1 := [("text", VStr "b.")]]> ∅),
        of_list [0; 1])
  /\ modified_in_place (BinaryOperation columns "n")
       (assigned_result columns "n") [0; 1] h
  /\ MapRefs (BinaryOperation columns "n") [0; 1] h
     = (<[0 := [("text", VStr "Hello, World!"); ("n", VInt 1)]]>
          (<[1 := [("text", VStr "B."); ("n", VInt 1)]]> ∅),
        of_list [0; 1]).
Proof.
  intros h columns.
  assert (Hnd : List.NoDup [0; 1]).
  { repeat constructor; simpl; intuition discriminate. }
  assert (Hrows : forall r, In r [0; 1] -> is_Some (h !! r)).
  { intros r [<- | [<- | []]]; eexists; reflexivity. }
  assert (Hstr : forall r row_, In r [0; 1] -> h !! r = Some row_ ->
                   exists s, dict_get row_ "text" = Some (VStr s)).
  { intros r row_ [<- | [<- | []]] Hr; vm_compute in Hr;
      injection Hr as <-; eexists; reflexivity. }
  assert (Hop : forall r row_, In r [0; 1] -> h !! r = Some row_ ->
                  exists v, columns row_ = Ok v).
  { intros r row_ _ _. eexists; reflexivity. }
  split; [exact Hnd |]. split; [| split; [| split]].
  - exact (proj2 (proj1 (proj2 (proj2
             (mappers_assign_in_place "text" columns [0; 1] h Hnd Hrows)))
             Hstr)).
  - vm_compute. reflexivity.
  - exact (proj2 (proj2 (proj2
             (mappers_assign_in_place "n" columns [0; 1] h Hnd Hrows)))
             Hop).
  - vm_compute. reflexivity.
Defined.

(** ** Joiners: unfolding and traces *)

Lemma yielded_try {A B} (r : result A) (k : A -> gen B) :
  yielded (try_ r k) = match r with Ok a => yielded (k a) | Raise _ => [] end.
Proof. now destruct r. Qed.

Lemma inner_loop_unfold (keys : list string) (sa sb : string)
    (overlap : list string) (row_a : row) (rest_a : list row) (row_b : row)
    (rest_b matched : list row) :
  inner_loop keys sa sb overlap row_a rest_a row_b rest_b matched
  = try_ (key_of keys row_a) (fun key_a =>
    try_ (key_of keys row_b) (fun key_b =>
    match tuple_lt key_a key_b with
    | None => raise TypeError
    | Some true =>
        try_ (buffer_holds keys matched key_a) (fun hit =>
        yield_then (if hit then inner_emit sa sb overlap row_a matched else [])
          match rest_a with
          | [] => done
          | a' :: rest_a' =>
              inner_loop keys sa sb overlap a' rest_a' row_b rest_b matched
          end)
    | Some false =>
        try_ (buffer_accepts keys matched key_b) (fun same =>
        let matched' := if same then matched ++ [row_b] else [row_b] in
        match rest_b with
        | [] => inner_tail keys sa sb overlap matched' row_a rest_a
        | b' :: rest_b' =>
            inner_loop keys sa sb overlap row_a rest_a b' rest_b' matched'
        end)
    end)).
Proof. destruct rest_a, rest_b; reflexivity. Qed.

Lemma inner_tail_unfold (keys : list string) (sa sb : string)
    (overlap : list string) (matched : list row) (row_a : row)
    (rest_a : list row) :
  inner_tail keys sa sb overlap matched row_a rest_a
  = try_ (key_of keys row_a) (fun key_a =>
    try_ (buffer_holds keys matched key_a) (fun hit =>
    yield_then (if hit then inner_emit sa sb overlap row_a matched else [])
      match rest_a with
      | [] => done
      | a' :: rest_a' => inner_tail keys sa sb overlap matched a' rest_a'
      end)).
Proof. destruct rest_a; reflexivity. Qed.

Lemma left_loop_unfold (keys : list string) (row_a : row) (rest_a : list row)
    (row_b : row) (rest_b : list row) :
  left_loop keys row_a rest_a row_b rest_b
  = try_ (key_of keys row_a) (fun key_a =>
    try_ (left_drain keys key_a row_b rest_b []) (fun st =>
    let '(row_b', rest_b', matched) := st in
    yield_then
      match matched with
      | [] => [row_a]
      | _ => map (fun row_b_matched => dict_update row_a row_b_matched) matched
      end
      match rest_a with
      | [] => done
      | a' :: rest_a' => left_loop keys a' rest_a' row_b' rest_b'
      end)).
Proof. destruct rest_a; reflexivity. Qed.

Lemma right_loop_unfold (keys : list string) (row_b : row) (rest_b : list row)
    (row_a : row) (rest_a : list row) :
  right_loop keys row_b rest_b row_a rest_a
  = try_ (key_of keys row_b) (fun key_b =>
    try_ (right_drain keys key_b row_a rest_a []) (fun st =>
    let '(row_a', rest_a', matched) := st in
    yield_then
      match matched with
      | [] => [row_b]
      | _ => map (fun row_a_matched => dict_update row_a_matched row_b) matched
      end
      match rest_b with
      | [] => done
      | b' :: rest_b' => right_loop keys b' rest_b' row_a' rest_a'
      end)).
Proof. destruct rest_b; reflexivity. Qed.

Lemma Forall_try {A B} (P : B -> Prop) (r : result A) (k : A -> gen B) :
  (forall a, r = Ok a -> Forall P (yielded (k a))) ->
  Forall P (yielded (try_ r k)).
Proof. destruct r; simpl; auto. Qed.

Lemma Forall_yield_then {A} (P : A -> Prop) (rs : list A) (g : gen A) :
  Forall P rs -> Forall P (yielded g) -> Forall P (yielded (yield_then rs g)).
Proof. intros. simpl. apply Forall_app; auto. Qed.

(** ** C10: the collision columns come from the first rows *)

Section OverlapOnce.
Variable keys : list string.
Variables sa sb : string.
Variables A B : list row.
Variable overlap : list string.

Let renamed_pair (r : row) : Prop :=
  exists a b, In a A /\ In b B
              /\ r = dict_update (rename_columns overlap sa a)
                                 (rename_columns overlap sb b).

Let plain_left (r : row) : Prop :=
  In r A \/ exists a b, In a A /\ In b B /\ r = dict_update a b.

Let plain_right (r : row) : Prop :=
  In r B \/ exists a b, In a A /\ In b B /\ r = dict_update a b.

Lemma inner_emit_shape (row_a : row) (matched : list row) (hit : bool) :
  In row_a A -> incl matched B ->
  Forall renamed_pair
    (if hit then inner_emit sa sb overlap row_a matched else []).
Proof.
  intros Ha Hm. destruct hit; [| constructor].
  unfold inner_emit. apply List.Forall_forall.
  intros r Hr. apply in_map_iff in Hr as (b & <- & Hb).
  exists row_a, b. auto.
Qed.

Lemma inner_tail_shape (rest_a : list row) :
  forall row_a matched,
    incl (row_a :: rest_a) A -> incl matched B ->
    Forall renamed_pair
      (yielded (inner_tail keys sa sb overlap matched row_a rest_a)).
Proof.
  induction rest_a as [| a' rest_a IH]; intros row_a matched Ha Hm;
    rewrite inner_tail_unfold;
    apply Forall_try; intros key_a _; apply Forall_try; intros hit _;
    apply Forall_yield_then;
    try (apply inner_emit_shape; auto; apply Ha; now left).
  - constructor.
  - apply IH; auto. intros x Hx. apply Ha. now right.
Qed.

Lemma buffer_grows (same : bool) (matched : list row) (row_b : row) :
  In row_b B -> incl matched B ->
  incl (if same then matched ++ [row_b] else [row_b]) B.
Proof.
  intros Hb Hm. destruct same; [apply incl_app; auto |];
    intros x [<- | []]; auto.
Qed.

Lemma inner_loop_shape (rest_a : list row) :
  forall row_a rest_b row_b matched,
    incl (row_a :: rest_a) A -> incl (row_b :: rest_b) B ->
    incl matched B ->
    Forall renamed_pair
      (yielded (inner_loop keys sa sb overlap row_a rest_a
                           row_b rest_b matched)).
Proof.
  induction rest_a as [| a' rest_a IHa]; intros row_a rest_b;
    induction rest_b as [| b' rest_b IHb]; intros row_b matched Ha Hb Hm;
    rewrite inner_loop_unfold;
    apply Forall_try; intros key_a _; apply Forall_try; intros key_b _;
    (destruct (tuple_lt key_a key_b) as [[|] |]; [| | constructor]);
    apply Forall_try; intros flag _;
    try (apply Forall_yield_then;
         [apply inner_emit_shape; auto; apply Ha; now left |]);
    try (constructor; fail);
    cbv zeta.
  - apply inner_tail_shape; auto. apply buffer_grows; auto.
    apply Hb; now left.
  - apply IHb; auto.
    + intros x Hx. apply Hb. now right.
    + apply buffer_grows; auto. apply Hb; now left.
  - apply IHa; auto. intros x Hx. apply Ha. now right.
  - apply inner_tail_shape; auto. apply buffer_grows; auto.
    apply Hb; now left.
  - apply IHa; auto. intros x Hx. apply Ha. now right.
  - apply IHb; auto.
    + intros x Hx. apply Hb. now right.
    + apply buffer_grows; auto. apply Hb; now left.
Qed.

Lemma left_drain_incl (key_a : list value) (rest_b : list row) :
  forall row_b matched row_b' rest_b' matched',
    left_drain keys key_a row_b rest_b matched
    = Ok (row_b', rest_b', matched') ->
    incl (row_b :: rest_b) B -> incl matched B ->
    incl (row_b' :: rest_b') B /\ incl matched' B.
Proof.
  induction rest_b as [| b' rest_b IH];
    intros row_b matched row_b' rest_b' matched' Hd Hb Hm;
    simpl in Hd; destruct (key_of keys row_b) as [key_b |]; simpl in Hd;
    try discriminate;
    destruct (tuple_ge key_a key_b) as [[|] |]; try discriminate.
  - injection Hd as <- <- <-. split; auto.
    destruct (tuple_eq key_a key_b); auto.
    apply incl_app; auto.
  - injection Hd as <- <- <-. auto.
  - eapply IH; eauto.
    + intros x Hx. apply Hb. now right.
    + destruct (tuple_eq key_a key_b); auto.
      apply incl_app; auto. intros x [<- | []]. apply Hb. now left.
  - injection Hd as <- <- <-. auto.
Qed.

Lemma left_loop_shape (rest_a : list row) :
  forall row_a row_b rest_b,
    incl (row_a :: rest_a) A -> incl (row_b :: rest_b) B ->
    Forall plain_left (yielded (left_loop keys row_a rest_a row_b rest_b)).
Proof.
  induction rest_a as [| a' rest_a IH]; intros row_a row_b rest_b Ha Hb;
    rewrite left_loop_unfold;
    apply Forall_try; intros key_a _; apply Forall_try;
    intros [[row_b' rest_b'] matched] Hd;
    destruct (left_drain_incl _ _ _ _ _ _ _ Hd Hb (incl_nil_l _))
      as [Hb' Hm];
    apply Forall_yield_then.
  1, 3: destruct matched as [| m matched];
    [ constructor; [left; apply Ha; now left | constructor]
    | apply List.Forall_forall; intros r Hr;
      apply in_map_iff in Hr as (b & <- & Hin);
      right; exists row_a, b; repeat split; auto; apply Ha; now left ].
  - constructor.
  - apply IH; auto. intros x Hx. apply Ha. now right.
Qed.

Lemma right_drain_incl (key_b : list value) (rest_a : list row) :
  forall row_a matched row_a' rest_a' matched',
    right_drain keys key_b row_a rest_a matched
    = Ok (row_a', rest_a', matched') ->
    incl (row_a :: rest_a) A -> incl matched A ->
    incl (row_a' :: rest_a') A /\ incl matched' A.
Proof.
  induction rest_a as [| a' rest_a IH];
    intros row_a matched row_a' rest_a' matched' Hd Ha Hm;
    simpl in Hd; destruct (key_of keys row_a) as [key_a |]; simpl in Hd;
    try discriminate;
    destruct (tuple_ge key_b key_a) as [[|] |]; try discriminate.
  - injection Hd as <- <- <-. split; auto.
    destruct (tuple_eq key_a key_b); auto.
    apply incl_app; auto.
  - injection Hd as <- <- <-. auto.
  - eapply IH; eauto.
    + intros x Hx. apply Ha. now right.
    + destruct (tuple_eq key_a key_b); auto.
      apply incl_app; auto. intros x [<- | []]. apply Ha. now left.
  - injection Hd as <- <- <-. auto.
Qed.

Lemma right_loop_shape (rest_b : list row) :
  forall row_b row_a rest_a,
    incl (row_a :: rest_a) A -> incl (row_b :: rest_b) B ->
    Forall plain_right (yielded (right_loop keys row_b rest_b row_a rest_a)).
Proof.
  induction rest_b as [| b' rest_b IH]; intros row_b row_a rest_a Ha Hb;
    rewrite right_loop_unfold;
    apply Forall_try; intros key_b _; apply Forall_try;
    intros [[row_a' rest_a'] matched] Hd;
    destruct (right_drain_incl _ _ _ _ _ _ _ Hd Ha (incl_nil_l _))
      as [Ha' Hm];
    apply Forall_yield_then.
  1, 3: destruct matched as [| m matched];
    [ constructor; [left; apply Hb; now left | constructor]
    | apply List.Forall_forall; intros r Hr;
      apply in_map_iff in Hr as (a & <- & Hin);
      right; exists a, row_b; repeat split; auto; apply Hb; now left ].
  - constructor.
  - apply IH; auto. intros x Hx. apply Hb. now right.
Qed.
End OverlapOnce.

Lemma str_mem_In (c : string) (l : list string) :
  str_mem c l = true <-> In c l.
Proof.
  unfold str_mem. rewrite existsb_exists. split.
  - intros (x & Hx & Heq). apply String.eqb_eq in Heq. now subst.
  - intros Hin. exists c. split; auto. apply String.eqb_refl.
Qed.

Lemma dict_mem_keys (r : row) (c : string) :
  dict_mem r c = true <-> In c (dict_keys r).
Proof.
  induction r as [| [k v] r IH]; simpl.
  - split; [discriminate | tauto].
  - destruct (String.eqb_spec k c) as [-> | Hne].
    + tauto.
    + rewrite IH. split; [tauto | intros [? | ?]]; [contradiction | auto].
Qed.

Lemma overlapping_columns_spec (keys : list string) (row_a row_b : row)
    (c : string) :
  str_mem c (overlapping_columns keys row_a row_b) = true
  <-> dict_mem row_a c = true /\ dict_mem row_b c = true
      /\ str_mem c keys = false.
Proof.
  unfold overlapping_columns.
  rewrite str_mem_In, !filter_In, negb_true_iff, <- dict_mem_keys. tauto.
Qed.

(** C10. The joiners compute the collision columns once, from the first row
    of each input.  Every row [InnerJoiner] emits is the merge of a left row
    and a right row renamed with that one set, whatever columns the later
    rows have; every row [LeftJoiner] or [RightJoiner] emits is an input row
    or the plain merge of a left and a right row, no column being renamed.
    A column belongs to the set only if both first rows have it and it is
    not a key, so a non-key column that only later rows share is treated as
    non-colliding throughout. *)
Theorem overlap_computed_from_first_rows :
  forall (keys : list string) (sa sb : string)
         (row_a : row) (rest_a : list row) (row_b : row) (rest_b : list row),
    let A := row_a :: rest_a in
    let B := row_b :: rest_b in
    let overlap := overlapping_columns keys row_a row_b in
    Forall (fun r => exists a b,
                In a A /\ In b B
                /\ r = dict_update (rename_columns overlap sa a)
                                   (rename_columns overlap sb b))
           (yielded (InnerJoiner keys sa sb A B))
    /\ Forall (fun r => In r A \/ exists a b,
                   In a A /\ In b B /\ r = dict_update a b)
              (yielded (LeftJoiner keys A B))
    /\ Forall (fun r => In r B \/ exists a b,
                   In a A /\ In b B /\ r = dict_update a b)
              (yielded (RightJoiner keys A B))
    /\ (forall c, str_mem c overlap = true
                  <-> dict_mem row_a c = true /\ dict_mem row_b c = true
                      /\ str_mem c keys = false).
Proof.
  intros keys sa sb row_a rest_a row_b rest_b A B overlap.
  split; [| split; [| split]].
  - apply inner_loop_shape; auto using incl_refl, incl_nil_l.
  - apply left_loop_shape; auto using incl_refl.
  - unfold RightJoiner, A, B. apply Forall_try. intros _ _.
    apply right_loop_shape; auto using incl_refl.
  - intros c. apply overlapping_columns_spec.
Qed.

(** An instance of C10: the first rows share no non-key column, the second
    rows of both inputs share [v]; [v] is not renamed and the right value
    overwrites the left one. *)
Example InnerJoiner_late_collision :
  InnerJoiner ["k"] "_1" "_2"
    [[("k", VInt 1)]; [("k", VInt 2); ("v", VStr "a")]]
    [[("k", VInt 1); ("w", VInt 0)]; [("k", VInt 2); ("v", VStr "x")]]
  = of_list [[("k", VInt 1); ("w", VInt 0)]; [("k", VInt 2); ("v", VStr "x")]].
Proof. reflexivity. Qed.

(** ** The iteration order of a set *)

Lemma insert_at_perm {A} (x : A) (l : list A) :
  forall n, Permutation (insert_at n x l) (x :: l).
Proof.
  induction l as [| y l IH]; intros n; simpl.
  - apply Permutation_refl.
  - destruct n as [| n].
    + apply Permutation_refl.
    + apply Permutation_trans with (y :: x :: l).
      * apply perm_skip, IH.
      * apply perm_swap.
Qed.

Lemma arrange_perm {A} (s : list A) :
  forall code, Permutation (arrange code s) s.
Proof.
  induction s as [| x s IH]; intros code; simpl.
  - apply perm_nil.
  - apply Permutation_trans with (x :: arrange (List.tl code) s).
    + apply insert_at_perm.
    + apply perm_skip, IH.
Qed.

Lemma insert_at_middle {A} (x : A) (l1 l2 : list A) :
  insert_at (List.length l1) x (l1 ++ l2) = l1 ++ x :: l2.
Proof.
  induction l1 as [| y l1 IH]; simpl.
  - now destruct l2.
  - now rewrite IH.
Qed.

(** Every order of the elements has a code: the parameter leaves the
    iteration order of a set free. *)
Lemma arrange_complete {A} (s : list A) :
  forall s', Permutation s s' -> exists code, arrange code s = s'.
Proof.
  induction s as [| x s IH]; intros s' Hp.
  - apply Permutation_nil in Hp. subst. now exists [].
  - assert (Hin : In x s') by (eapply Permutation_in; eauto; now left).
    apply in_split in Hin as (l1 & l2 & ->).
    apply Permutation_cons_app_inv in Hp.
    destruct (IH _ Hp) as [code Hc].
    exists (List.length l1 :: code). simpl. rewrite Hc.
    apply insert_at_middle.
Qed.

Lemma arrange_first_inserted {A} (s : list A) : arrange [] s = s.
Proof.
  induction s as [| x s IH]; simpl; auto. rewrite IH. now destruct s.
Qed.

Lemma dict_set_fresh (d : row) (k : string) (v : value) :
  ~ In k (dict_keys d) -> dict_set d k v = d ++ [(k, v)].
Proof.
  induction d as [| [k' v'] d IH]; simpl; intros Hk; auto.
  destruct (String.eqb_spec k' k) as [-> | Hne]; [tauto |].
  rewrite IH; tauto.
Qed.

Lemma dict_update_fresh (items : list (string * value)) :
  forall d,
    List.NoDup (dict_keys d ++ map fst items) ->
    dict_update d items = d ++ items.
Proof.
  unfold dict_update, dict_keys.
  induction items as [| [k v] items IH]; intros d Hnd; cbn [fold_left fst snd].
  - now rewrite app_nil_r.
  - cbn [map fst] in Hnd.
    rewrite dict_set_fresh.
    + rewrite IH; [now rewrite <- app_assoc |].
      rewrite map_app, <- app_assoc. exact Hnd.
    + apply NoDup_remove_2 in Hnd. unfold dict_keys. intros Hin.
      apply Hnd, in_or_app. now left.
Qed.

(** The rows [OuterJoiner] builds for one key under two iteration orders
    have the same columns with the same values; only the order of the
    columns differs. *)
Lemma outer_merge_columns (order : set_order) (row_a row_b : row) :
  List.NoDup (set_union String.eqb (dict_keys row_a) (dict_keys row_b)) ->
  Permutation (outer_merge order row_a row_b)
              (outer_merge insertion_order row_a row_b).
Proof.
  intros Hnd. unfold outer_merge, set_iter, insertion_order, dict_of_items.
  cbn [column_order]. rewrite arrange_first_inserted.
  set (cols := set_union String.eqb (dict_keys row_a) (dict_keys row_b)) in *.
  set (f := fun k : string => (k, _)).
  pose proof (arrange_perm cols (column_order order cols)) as Hp.
  assert (Hfst : forall l, map fst (map f l) = l).
  { intros l. rewrite map_map. unfold f. cbn [fst]. apply map_id. }
  rewrite !dict_update_fresh.
  - cbn [app]. now apply Permutation_map.
  - cbn [dict_keys map app]. now rewrite Hfst.
  - cbn [dict_keys map app]. rewrite Hfst.
    eapply Permutation_NoDup; [apply Permutation_sym, Hp | exact Hnd].
Qed.

(** ** C1, C2, C3, C7: what the joiners do on small inputs *)

(** C1. Left block of two rows, right block of two rows, one key.
    [InnerJoiner] emits the four pairs.  [LeftJoiner] empties its buffer
    after the first left row: the second left row meets only the last right
    row read (the pair with the first right row is missing), and when the
    right input goes on to a larger key it meets no right row at all.
    [RightJoiner] loses the mirror pair, and [OuterJoiner], which keeps one
    row per key and side, emits a single pair, its columns in the order in
    which the set of column names is iterated. *)
Theorem joiners_on_two_by_two_block :
  let a1 := [("k", VInt 1); ("v", VStr "a")] in
  let a2 := [("k", VInt 1); ("v", VStr "b")] in
  let b1 := [("k", VInt 1); ("w", VStr "x")] in
  let b2 := [("k", VInt 1); ("w", VStr "y")] in
  let b3 := [("k", VInt 2); ("w", VStr "z")] in
  InnerJoiner ["k"] "_1" "_2" [a1; a2] [b1; b2]
  = of_list [dict_update a1 b1; dict_update a1 b2;
             dict_update a2 b1; dict_update a2 b2]
  /\ LeftJoiner ["k"] [a1; a2] [b1; b2]
     = of_list [dict_update a1 b1; dict_update a1 b2; dict_update a2 b2]
  /\ LeftJoiner ["k"] [a1; a2] [b1; b2; b3]
     = of_list [dict_update a1 b1; dict_update a1 b2; a2]
  /\ RightJoiner ["k"] [a1; a2] [b1; b2]
     = of_list [dict_update a1 b1; dict_update a2 b1; dict_update a2 b2]
  /\ (forall order : set_order,
        exists r,
          OuterJoiner ["k"] order [a1; a2] [b1; b2] = of_list [r]
          /\ Permutation r (dict_update a2 b2))
  /\ ~ In (dict_update a2 b1) (yielded (LeftJoiner ["k"] [a1; a2] [b1; b2])).
Proof.
  intros a1 a2 b1 b2 b3.
  split; [reflexivity |]. split; [reflexivity |]. split; [reflexivity |].
  split; [reflexivity |]. split.
  - intros order. exists (outer_merge order a2 b2). split; [reflexivity |].
    apply (outer_merge_columns order a2 b2).
    repeat constructor; simpl; intuition discriminate.
  - vm_compute. intros [H | [H | [H | []]]]; discriminate.
Qed.

(** C2. Both rows have the non-key column [v].  [InnerJoiner] emits it as
    [v_1] and [v_2]; [LeftJoiner], [RightJoiner] and [OuterJoiner] emit a
    single column [v] (the right value, resp. the left value for the outer
    join) and no suffixed column. *)
Theorem joiners_on_colliding_column :
  let a := [("k", VInt 1); ("v", VStr "a")] in
  let b := [("k", VInt 1); ("v", VStr "x")] in
  InnerJoiner ["k"] "_1" "_2" [a] [b]
  = of_list [[("k", VInt 1); ("v_1", VStr "a"); ("v_2", VStr "x")]]
  /\ LeftJoiner ["k"] [a] [b] = of_list [[("k", VInt 1); ("v", VStr "x")]]
  /\ RightJoiner ["k"] [a] [b] = of_list [[("k", VInt 1); ("v", VStr "x")]]
  /\ (forall order : set_order,
        exists r,
          OuterJoiner ["k"] order [a] [b] = of_list [r]
          /\ Permutation r [("k", VInt 1); ("v", VStr "a")]).
Proof.
  intros a b.
  split; [reflexivity |]. split; [reflexivity |]. split; [reflexivity |].
  intros order. exists (outer_merge order a b). split; [reflexivity |].
  apply (outer_merge_columns order a b).
  repeat constructor; simpl; intuition discriminate.
Qed.

(** C3. With an empty input on either side every merge joiner stops at the
    first [next]: [LeftJoiner] emits nothing although the left input has
    rows, and so does [RightJoiner] for the right input.  [InnerJoiner]
    emits nothing and [OuterJoiner] emits the rows of the other input. *)
Theorem joiners_on_empty_input :
  forall (keys : list string) (sa sb : string) (rows : list row),
    InnerJoiner keys sa sb rows [] = done
    /\ InnerJoiner keys sa sb [] rows = done
    /\ LeftJoiner keys rows [] = done
    /\ LeftJoiner keys [] rows = done
    /\ RightJoiner keys [] rows = done
    /\ RightJoiner keys rows [] = done
    /\ (forall order : set_order,
          exists r,
            OuterJoiner ["k"] order [[("k", VInt 1); ("v", VStr "a")]] []
            = of_list [r]
            /\ Permutation r [("k", VInt 1); ("v", VStr "a")])
    /\ (forall order : set_order,
          exists r,
            OuterJoiner ["k"] order [] [[("k", VInt 1); ("v", VStr "a")]]
            = of_list [r]
            /\ Permutation r [("k", VInt 1); ("v", VStr "a")]).
Proof.
  intros keys sa sb rows.
  split; [now destruct rows |]. split; [reflexivity |].
  split; [now destruct rows |]. split; [reflexivity |].
  split; [reflexivity |]. split; [now destruct rows |]. split.
  - intros order. exists (outer_merge order [("k", VInt 1); ("v", VStr "a")] []).
    split; [reflexivity |].
    apply (outer_merge_columns order [("k", VInt 1); ("v", VStr "a")] []).
    repeat constructor; simpl; intuition discriminate.
  - intros order. exists (outer_merge order [] [("k", VInt 1); ("v", VStr "a")]).
    split; [reflexivity |].
    apply (outer_merge_columns order [] [("k", VInt 1); ("v", VStr "a")]).
    repeat constructor; simpl; intuition discriminate.
Qed.

(** C7. On one left row and one right row with the same key and a shared
    column [v], [left_join(A, B)] keeps the value of [B] and
    [right_join(B, A)] keeps the value of [A]; neither has a suffixed
    column, so the two results differ and no swap of suffixes reconciles
    them. *)
Theorem left_right_on_colliding_column :
  let A := [[("k", VInt 1); ("v", VStr "a")]] in
  let B := [[("k", VInt 1); ("v", VStr "x")]] in
  LeftJoiner ["k"] A B = of_list [[("k", VInt 1); ("v", VStr "x")]]
  /\ RightJoiner ["k"] B A = of_list [[("k", VInt 1); ("v", VStr "a")]]
  /\ row_eqb [("k", VInt 1); ("v", VStr "x")]
             [("k", VInt 1); ("v", VStr "a")] = false.
Proof. repeat split; reflexivity. Qed.

(** ** The order of key tuples *)

Lemma string_compare_refl (s : string) : String.compare s s = Eq.
Proof. now apply String_as_OT.cmp_eq. Qed.

Lemma string_compare_lt_trans (s t u : string) :
  String.compare s t = Lt -> String.compare t u = Lt ->
  String.compare s u = Lt.
Proof.
  intros H1 H2. apply String_as_OT.cmp_lt.
  apply String_as_OT.cmp_lt in H1, H2.
  eapply String_as_OT.lt_trans; eauto.
Qed.

Lemma value_compare_antisym (x y : value) :
  value_compare y x = CompOpp (value_compare x y).
Proof.
  destruct x as [| [] | a | s], y as [| [] | b | t];
    cbn [value_compare num_of kind_rank]; try reflexivity;
    auto using Z.compare_antisym, String.compare_antisym.
Qed.

Lemma value_compare_eq_py (x y : value) :
  value_compare x y = Eq <-> py_eq x y = true.
Proof.
  destruct x as [| [] | a | s], y as [| [] | b | t];
    cbn [value_compare py_eq num_of kind_rank];
    rewrite ?Z.compare_eq_iff, ?Z.eqb_eq, ?String_as_OT.cmp_eq,
      ?String.eqb_eq;
    try tauto; split; simpl; congruence.
Qed.

Lemma value_compare_eq_l (x y z : value) :
  value_compare x y = Eq -> value_compare x z = value_compare y z.
Proof.
  destruct x as [| [] | a | s], y as [| [] | b | t], z as [| [] | c | u];
    cbn [value_compare num_of kind_rank]; try reflexivity;
    try (simpl; discriminate);
    try (intros H; apply Z.compare_eq_iff in H; subst; reflexivity);
    try (intros H; apply Z.compare_eq_iff in H; rewrite H; reflexivity);
    try (intros H; apply Z.compare_eq_iff in H; rewrite <- H; reflexivity);
    try (intros H; apply String.compare_eq_iff in H; subst; reflexivity).
Qed.

Lemma value_compare_lt_trans (x y z : value) :
  value_compare x y = Lt -> value_compare y z = Lt -> value_compare x z = Lt.
Proof.
  destruct x as [| [] | a | s], y as [| [] | b | t], z as [| [] | c | u];
    cbn [value_compare num_of kind_rank]; try reflexivity;
    try (simpl; discriminate);
    try (simpl; intros; discriminate);
    rewrite ?Z.compare_lt_iff; try lia;
    apply string_compare_lt_trans.
Qed.

Lemma py_lt_compare (x y : value) (r : bool) :
  py_lt x y = Some r -> r = is_lt (value_compare x y).
Proof.
  destruct x as [| [] | a | s], y as [| [] | b | t];
    cbn [py_lt value_compare num_of kind_rank]; try discriminate;
    intros H; injection H as <-; unfold String.ltb, Z.ltb, is_lt;
    reflexivity.
Qed.

Lemma py_ge_compare (x y : value) (r : bool) :
  py_ge x y = Some r -> r = negb (is_lt (value_compare x y)).
Proof.
  destruct x as [| [] | a | s], y as [| [] | b | t];
    cbn [py_ge value_compare num_of kind_rank]; try discriminate;
    intros H; injection H as <-; unfold String.leb, Z.leb, is_lt;
    try reflexivity;
    rewrite 1?Z.compare_antisym, 1?String.compare_antisym;
    match goal with |- context [CompOpp ?c] => destruct c end; reflexivity.
Qed.

Lemma tuple_compare_antisym (a : list value) :
  forall b, tuple_compare b a = CompOpp (tuple_compare a b).
Proof.
  induction a as [| x a IH]; intros [| y b]; simpl; auto.
  rewrite (value_compare_antisym x y), IH.
  now destruct (value_compare x y).
Qed.

Lemma tuple_compare_refl (a : list value) : tuple_compare a a = Eq.
Proof.
  induction a as [| x a IH]; simpl; auto.
  now rewrite (proj2 (value_compare_eq_py x x) (py_eq_refl x)).
Qed.

Lemma tuple_compare_eq (a : list value) :
  forall b, tuple_compare a b = Eq <-> tuple_eq a b = true.
Proof.
  induction a as [| x a IH]; intros [| y b]; simpl;
    try (split; [reflexivity || discriminate | reflexivity || discriminate]).
  rewrite andb_true_iff, <- IH, <- value_compare_eq_py.
  destruct (value_compare x y); split; try tauto; try discriminate;
    intros [? ?]; discriminate.
Qed.

Lemma tuple_compare_eq_l (a : list value) :
  forall b c, tuple_compare a b = Eq -> tuple_compare a c = tuple_compare b c.
Proof.
  induction a as [| x a IH]; intros [| y b] [| z c]; simpl;
    try reflexivity; try discriminate; try (intros _; reflexivity).
  destruct (value_compare x y) eqn:Hxy; try discriminate.
  intros H. rewrite (value_compare_eq_l x y z Hxy).
  destruct (value_compare y z); auto.
Qed.

Lemma tuple_compare_lt_trans (a : list value) :
  forall b c, tuple_compare a b = Lt -> tuple_compare b c = Lt ->
              tuple_compare a c = Lt.
Proof.
  induction a as [| x a IH]; intros [| y b] [| z c]; simpl;
    try reflexivity; try discriminate; try (intros _ _; reflexivity).
  destruct (value_compare x y) eqn:Hxy; try discriminate.
  - rewrite (value_compare_eq_l x y z Hxy).
    destruct (value_compare y z); try discriminate; eauto.
  - intros _. destruct (value_compare y z) eqn:Hyz; try discriminate.
    + intros _. rewrite value_compare_antisym in Hyz.
      rewrite value_compare_antisym,
        (value_compare_eq_l z y x), <- value_compare_antisym, Hxy; auto.
      now destruct (value_compare z y).
    + now rewrite (value_compare_lt_trans x y z Hxy Hyz).
Qed.

(** Where Python compares two key tuples without [TypeError], the result is
    the one of [tuple_compare]. *)
Lemma tuple_lt_compare (a : list value) :
  forall b r, tuple_lt a b = Some r -> r = is_lt (tuple_compare a b).
Proof.
  induction a as [| x a IH]; intros [| y b] r; simpl;
    try (intros H; injection H as <-; reflexivity).
  destruct (py_eq x y) eqn:Heq.
  - apply value_compare_eq_py in Heq. rewrite Heq. apply IH.
  - intros H. apply py_lt_compare in H. subst r.
    destruct (value_compare x y) eqn:Hc; auto.
    apply value_compare_eq_py in Hc. congruence.
Qed.

Lemma tuple_ge_compare (a : list value) :
  forall b r, tuple_ge a b = Some r -> r = negb (is_lt (tuple_compare a b)).
Proof.
  induction a as [| x a IH]; intros [| y b] r; simpl;
    try (intros H; injection H as <-; reflexivity).
  destruct (py_eq x y) eqn:Heq.
  - apply value_compare_eq_py in Heq. rewrite Heq. apply IH.
  - intros H. apply py_ge_compare in H. subst r.
    destruct (value_compare x y) eqn:Hc; auto.
    apply value_compare_eq_py in Hc. congruence.
Qed.

(** The test [elif key_a >= key_b] of [InnerJoiner] holds whenever it is
    reached. *)
Lemma py_lt_false_ge (x y : value) :
  py_lt x y = Some false -> py_ge x y = Some true.
Proof.
  destruct x as [| [] | p | s], y as [| [] | q | t];
    cbn [py_lt py_ge num_of]; try discriminate; intros H;
    apply (f_equal (fun o => match o with Some b => b | None => false end))
      in H; cbn beta iota in H; f_equal;
    try (apply Z.ltb_ge in H; apply Z.leb_le; lia).
  unfold String.ltb in H. unfold String.leb.
  rewrite String.compare_antisym.
  destruct (String.compare s t); simpl; congruence.
Qed.

Lemma tuple_lt_false_ge (a b : list value) :
  tuple_lt a b = Some false -> tuple_ge a b = Some true.
Proof.
  revert b; induction a as [| x a IH]; intros [| y b]; simpl; auto;
    try discriminate.
  destruct (py_eq x y); auto using py_lt_false_ge.
Qed.

(** ** C4: the external sort *)

Lemma key_le_total (x y : keyed) : key_le x y = false -> key_le y x = true.
Proof.
  unfold key_le. rewrite (tuple_compare_antisym (fst x) (fst y)).
  now destruct (tuple_compare (fst x) (fst y)).
Qed.

Lemma tuple_compare_le_trans (a b c : list value) :
  tuple_compare a b <> Gt -> tuple_compare b c <> Gt ->
  tuple_compare a c <> Gt.
Proof.
  intros Hab Hbc.
  destruct (tuple_compare a b) eqn:E1; try congruence.
  - now rewrite (tuple_compare_eq_l a b c E1).
  - destruct (tuple_compare b c) eqn:E2; try congruence.
    + rewrite tuple_compare_antisym in E2.
      assert (E3 : tuple_compare c b = Eq)
        by (destruct (tuple_compare c b); simpl in E2; congruence).
      rewrite (tuple_compare_antisym c a), (tuple_compare_eq_l c b a E3),
        (tuple_compare_antisym a b), E1. simpl. congruence.
    + rewrite (tuple_compare_lt_trans a b c E1 E2). congruence.
Qed.

Lemma key_le_iff (x y : keyed) :
  key_le x y = true <-> tuple_compare (fst x) (fst y) <> Gt.
Proof.
  unfold key_le. destruct (tuple_compare (fst x) (fst y)); split;
    congruence.
Qed.

Lemma key_le_trans (x y z : keyed) :
  key_le x y = true -> key_le y z = true -> key_le x z = true.
Proof. rewrite !key_le_iff. apply tuple_compare_le_trans. Qed.

Lemma key_le_false_same (k : list value) (x y : keyed) :
  key_le x y = false -> same_key k x = true -> same_key k y = false.
Proof.
  unfold key_le, same_key. intros Hle Hx.
  destruct (tuple_eq (fst y) k) eqn:Hy; auto.
  rewrite tuple_eq_sym in Hy.
  pose proof (tuple_eq_trans _ _ _ Hx Hy) as Hxy.
  apply tuple_compare_eq in Hxy. now rewrite Hxy in Hle.
Qed.

Lemma insert_run_perm (x : keyed) (run : list keyed) :
  Permutation (insert_run x run) (x :: run).
Proof.
  induction run as [| y run IH]; simpl; auto.
  destruct (key_le x y); auto.
  rewrite IH. apply perm_swap.
Qed.

Lemma insert_run_sorted (x : keyed) (run : list keyed) :
  StronglySorted key_le_prop run -> StronglySorted key_le_prop (insert_run x run).
Proof.
  induction 1 as [| y run Hs IH Hy]; simpl.
  - repeat constructor.
  - destruct (key_le x y) eqn:Hxy.
    + constructor; [constructor; auto |].
      constructor; auto.
      eapply List.Forall_impl; [| exact Hy].
      intros z Hz. eapply key_le_trans; eauto.
    + constructor; auto.
      eapply Permutation_Forall; [symmetry; apply insert_run_perm |].
      constructor; auto. now apply key_le_total.
Qed.

Lemma insert_run_filter (k : list value) (x : keyed) (run : list keyed) :
  List.filter (same_key k) (insert_run x run)
  = List.filter (same_key k) (x :: run).
Proof.
  induction run as [| y run IH]; auto.
  cbn [insert_run]. destruct (key_le x y) eqn:Hxy; auto.
  cbn [List.filter] in *. rewrite IH.
  destruct (same_key k x) eqn:Hx; auto.
  now rewrite (key_le_false_same k x y Hxy Hx).
Qed.

Lemma sort_chunk_perm (chunk : list keyed) :
  Permutation (sort_chunk chunk) chunk.
Proof.
  induction chunk as [| x chunk IH]; simpl; auto.
  now rewrite insert_run_perm, IH.
Qed.

Lemma sort_chunk_sorted (chunk : list keyed) :
  StronglySorted key_le_prop (sort_chunk chunk).
Proof.
  induction chunk as [| x chunk IH]; simpl.
  - constructor.
  - now apply insert_run_sorted.
Qed.

Lemma sort_chunk_filter (k : list value) (chunk : list keyed) :
  List.filter (same_key k) (sort_chunk chunk) = List.filter (same_key k) chunk.
Proof.
  induction chunk as [| x chunk IH]; auto.
  cbn [sort_chunk fold_right]. fold (sort_chunk chunk).
  rewrite insert_run_filter. cbn [List.filter]. now rewrite IH.
Qed.

Lemma chunks_concat (B : nat) (items : list keyed) :
  forall cur, concat (chunks B cur items) = cur ++ items.
Proof.
  induction items as [| x items IH]; intros cur; simpl.
  - destruct cur; simpl; now rewrite ?app_nil_r.
  - destruct (B <=? List.length (cur ++ [x]))%nat; simpl; rewrite IH;
      now rewrite <- app_assoc.
Qed.

Lemma pop_min_none (runs : list (list keyed)) :
  pop_min runs = None -> concat runs = [].
Proof.
  induction runs as [| [| x run] runs IH]; simpl; auto.
  - destruct (pop_min runs) as [[y rest] |]; [discriminate | auto].
  - destruct (pop_min runs) as [[y rest] |]; [| discriminate].
    destruct (key_le x y); discriminate.
Qed.

Lemma pop_min_perm (runs : list (list keyed)) :
  forall x runs',
    pop_min runs = Some (x, runs') ->
    Permutation (concat runs) (x :: concat runs').
Proof.
  induction runs as [| [| x0 run] runs IH]; intros x runs'; simpl.
  - discriminate.
  - destruct (pop_min runs) as [[y rest] |]; [| discriminate].
    intros H; injection H as <- <-. simpl. now apply IH.
  - destruct (pop_min runs) as [[y rest] |] eqn:Hp.
    + destruct (key_le x0 y); intros H; injection H as <- <-; simpl; auto.
      rewrite (IH y rest eq_refl).
      change (x0 :: run ++ y :: concat rest)
        with ((x0 :: run) ++ y :: concat rest).
      rewrite <- Permutation_middle. reflexivity.
    + intros H; injection H as <- <-. reflexivity.
Qed.

Lemma pop_min_least (runs : list (list keyed)) :
  forall x runs',
    Forall (StronglySorted key_le_prop) runs ->
    pop_min runs = Some (x, runs') ->
    Forall (StronglySorted key_le_prop) runs'
    /\ Forall (key_le_prop x) (concat runs').
Proof.
  induction runs as [| [| x0 run] runs IH]; intros x runs' Hs; simpl.
  - discriminate.
  - inversion Hs as [| ? ? _ Hs']; subst.
    destruct (pop_min runs) as [[y rest] |] eqn:Hp; [| discriminate].
    intros H; injection H as <- <-.
    destruct (IH y rest Hs' eq_refl) as [H1 H2].
    split; [constructor; [constructor | auto] | auto].
  - inversion Hs as [| ? ? Hx0 Hs']; subst.
    inversion Hx0 as [| ? ? Hrun Hle]; subst.
    destruct (pop_min runs) as [[y rest] |] eqn:Hp.
    + destruct (IH y rest Hs' eq_refl) as [H1 H2].
      destruct (key_le x0 y) eqn:Hxy; intros H; injection H as <- <-.
      * split; [constructor; auto |]. simpl. apply Forall_app. split; auto.
        eapply Permutation_Forall;
          [symmetry; apply (pop_min_perm runs y rest Hp) |].
        constructor; auto.
        eapply List.Forall_impl; [| exact H2].
        intros z Hz. eapply key_le_trans; eauto.
      * split; [constructor; auto |]. simpl.
        apply key_le_total in Hxy.
        constructor; auto. apply Forall_app. split; auto.
        eapply List.Forall_impl; [| exact Hle].
        intros z Hz. eapply key_le_trans; eauto.
    + intros H; injection H as <- <-. split; [constructor; auto |].
      simpl. rewrite (pop_min_none runs Hp), app_nil_r. exact Hle.
Qed.

Lemma filter_none (k : list value) (y : keyed) (l : list keyed) :
  same_key k y = true ->
  Forall (fun z => key_le z y = false) l ->
  List.filter (same_key k) l = [].
Proof.
  intros Hy. induction 1 as [| z l Hz _ IH]; simpl; auto.
  destruct (same_key k z) eqn:Hkz; auto.
  now rewrite (key_le_false_same k z y Hz Hkz) in Hy.
Qed.

Lemma pop_min_filter (k : list value) (runs : list (list keyed)) :
  forall x runs',
    Forall (StronglySorted key_le_prop) runs ->
    pop_min runs = Some (x, runs') ->
    List.filter (same_key k) (concat runs)
    = List.filter (same_key k) (x :: concat runs').
Proof.
  induction runs as [| [| x0 run] runs IH]; intros x runs' Hs;
    cbn [pop_min].
  - discriminate.
  - inversion Hs as [| ? ? _ Hs']; subst.
    destruct (pop_min runs) as [[y rest] |] eqn:Hp; [| discriminate].
    intros H; injection H as <- <-. cbn [concat app]. now apply IH.
  - inversion Hs as [| ? ? Hx0 Hs']; subst.
    inversion Hx0 as [| ? ? Hrun Hle]; subst.
    destruct (pop_min runs) as [[y rest] |] eqn:Hp.
    + destruct (key_le x0 y) eqn:Hxy; intros H; injection H as <- <-; auto.
      cbn [concat].
      assert (Hlow : Forall (fun z => key_le z y = false) (x0 :: run)).
      { constructor; auto.
        eapply List.Forall_impl; [| exact Hle].
        intros z Hz. destruct (key_le z y) eqn:Hzy; auto.
        unfold key_le_prop in Hz.
        now rewrite (key_le_trans _ _ _ Hz Hzy) in Hxy. }
      remember (x0 :: run) as low.
      rewrite List.filter_app, (IH y rest Hs' eq_refl).
      cbn [List.filter]. destruct (same_key k y) eqn:Hy.
      * rewrite List.filter_app.
        now rewrite (filter_none k y low Hy Hlow).
      * now rewrite List.filter_app.
    + intros H; injection H as <- <-. reflexivity.
Qed.

Lemma kway_merge_correct (fuel : nat) :
  forall runs,
    List.length (concat runs) <= fuel ->
    Forall (StronglySorted key_le_prop) runs ->
    Permutation (kway_merge fuel runs) (concat runs)
    /\ StronglySorted key_le_prop (kway_merge fuel runs)
    /\ (forall k, List.filter (same_key k) (kway_merge fuel runs)
                  = List.filter (same_key k) (concat runs)).
Proof.
  induction fuel as [| fuel IH]; intros runs Hlen Hs; cbn [kway_merge].
  - destruct (concat runs); [| simpl in Hlen; lia].
    repeat split; auto. constructor.
  - destruct (pop_min runs) as [[x runs'] |] eqn:Hp.
    + pose proof (pop_min_perm runs x runs' Hp) as Hperm.
      destruct (pop_min_least runs x runs' Hs Hp) as [Hs' Hmin].
      destruct (IH runs') as (Hp' & Hsorted & Hfilter); auto.
      { apply Permutation_length in Hperm. simpl in Hperm. lia. }
      split; [| split].
      * now rewrite Hp', Hperm.
      * constructor; auto.
        eapply Permutation_Forall; [symmetry; exact Hp' | exact Hmin].
      * intros k. rewrite (pop_min_filter k runs x runs' Hs Hp).
        cbn [List.filter]. now rewrite Hfilter.
    + rewrite (pop_min_none runs Hp). repeat split; auto. constructor.
Qed.

Lemma key_of_total (keys : list string) (r : row) :
  has_keys keys r ->
  exists key, key_of keys r = Ok key.
Proof.
  induction 1 as [| k keys Hk _ [key IH]]; simpl.
  - now exists [].
  - unfold getitem.
    assert (Hget : exists v, dict_get r k = Some v).
    { clear - Hk. induction r as [| [k' v'] r IHr]; simpl in *;
        [discriminate |].
      destruct (String.eqb k' k); eauto. }
    destruct Hget as [v ->]. simpl. rewrite IH. simpl. eauto.
Qed.

Lemma with_keys_ok (keys : list string) (rows : list row) :
  Forall (has_keys keys) rows ->
  exists items,
    with_keys keys rows = Ok items
    /\ map snd items = rows
    /\ Forall (fun x => key_of keys (snd x) = Ok (fst x)) items.
Proof.
  induction 1 as [| r rows Hr _ (items & Hw & Hm & Hc)]; simpl.
  - exists []. repeat split; constructor.
  - destruct (key_of_total keys r Hr) as [key Hk].
    exists ((key, r) :: items). rewrite Hk, Hw. simpl.
    repeat split; [now rewrite Hm | constructor; auto].
Qed.

Lemma sorted_rows (keys : list string) (l : list keyed) :
  Forall (fun x => key_of keys (snd x) = Ok (fst x)) l ->
  StronglySorted key_le_prop l ->
  StronglySorted (key_not_after keys) (map snd l).
Proof.
  intros Hc. induction 1 as [| x l Hs IH Hx]; simpl; constructor.
  - apply IH. now inversion Hc.
  - inversion Hc as [| ? ? Hcx Hcl]; subst.
    rewrite Forall_map. rewrite List.Forall_forall in *.
    intros y Hy. exists (fst x), (fst y).
    repeat split; auto. apply key_le_iff. now apply Hx.
Qed.

Lemma filter_rows (keys : list string) (k : list value) (l : list keyed) :
  Forall (fun x => key_of keys (snd x) = Ok (fst x)) l ->
  List.filter (row_has_key keys k) (map snd l)
  = map snd (List.filter (same_key k) l).
Proof.
  induction 1 as [| x l Hx _ IH]; simpl; auto.
  unfold row_has_key at 1. rewrite Hx. fold (same_key k x).
  destruct (same_key k x); simpl; now rewrite IH.
Qed.

Lemma runs_perm (cs : list (list keyed)) :
  Permutation (concat (map sort_chunk cs)) (concat cs).
Proof.
  induction cs as [| c cs IH]; simpl; auto.
  now rewrite sort_chunk_perm, IH.
Qed.

Lemma runs_filter (k : list value) (cs : list (list keyed)) :
  List.filter (same_key k) (concat (map sort_chunk cs))
  = List.filter (same_key k) (concat cs).
Proof.
  induction cs as [| c cs IH]; simpl; auto.
  now rewrite !List.filter_app, sort_chunk_filter, IH.
Qed.

(** C4. For every chunk size, key list and input stream whose rows all have
    the key columns, the stream produced by [.sort(keys)] ends normally, is
    a permutation of the input, is non-decreasing in the lexicographic order
    of the key tuples [(row[k] for k in keys)], and is stable: for every key
    tuple, the rows with that tuple appear in their input order. *)
Theorem ExternalSort_sorted_stable_permutation :
  forall (B : nat) (keys : list string) (rows : list row),
    Forall (has_keys keys) rows ->
    exists out,
      ExternalSort B keys rows = of_list out
      /\ Permutation out rows
      /\ StronglySorted (key_not_after keys) out
      /\ (forall k, List.filter (row_has_key keys k) out
                    = List.filter (row_has_key keys k) rows).
Proof.
  intros B keys rows Hrows.
  destruct (with_keys_ok keys rows Hrows) as (items & Hw & Hm & Hc).
  set (runs := map sort_chunk (chunks B [] items)).
  assert (Hruns : Forall (StronglySorted key_le_prop) runs).
  { unfold runs. rewrite Forall_map. apply List.Forall_forall.
    intros chunk _. apply sort_chunk_sorted. }
  assert (Hcat : Permutation (concat runs) items).
  { unfold runs. now rewrite runs_perm, chunks_concat. }
  assert (Hfil : forall k, List.filter (same_key k) (concat runs)
                           = List.filter (same_key k) items).
  { intros k. unfold runs. now rewrite runs_filter, chunks_concat. }
  destruct (kway_merge_correct (List.length items) runs)
    as (Hperm & Hsorted & Hstable); auto.
  { apply Permutation_length in Hcat. lia. }
  assert (Hc' : Forall (fun x => key_of keys (snd x) = Ok (fst x))
                       (kway_merge (List.length items) runs)).
  { eapply Permutation_Forall; [| exact Hc].
    symmetry. now rewrite Hperm. }
  exists (map snd (kway_merge (List.length items) runs)).
  split; [| split; [| split]].
  - unfold ExternalSort. rewrite Hw. reflexivity.
  - rewrite <- Hm. apply Permutation_map. now rewrite Hperm.
  - now apply sorted_rows.
  - intros k. rewrite <- Hm, !filter_rows by assumption.
    now rewrite Hstable, Hfil.
Qed.

Lemma ExternalSort_sorted_stable_permutation_witness :
  let rows := [[("k", VInt 3); ("v", VStr "a")];
               [("k", VInt 1); ("v", VStr "b")];
               [("k", VInt 3); ("v", VStr "c")];
               [("k", VInt 1); ("v", VStr "d")];
               [("k", VInt 2); ("v", VStr "e")]] in
  Forall (has_keys ["k"]) rows
  /\ (exists out,
         ExternalSort 2 ["k"] rows = of_list out
         /\ Permutation out rows
         /\ StronglySorted (key_not_after ["k"]) out
         /\ (forall k, List.filter (row_has_key ["k"] k) out
                       = List.filter (row_has_key ["k"] k) rows))
  /\ ExternalSort 2 ["k"] rows
     = of_list [[("k", VInt 1); ("v", VStr "b")];
                [("k", VInt 1); ("v", VStr "d")];
                [("k", VInt 2); ("v", VStr "e")];
                [("k", VInt 3); ("v", VStr "a")];
                [("k", VInt 3); ("v", VStr "c")]].
Proof.
  intros rows.
  assert (H : Forall (has_keys ["k"]) rows).
  { repeat constructor. }
  split; [exact H |]. split.
  - exact (ExternalSort_sorted_stable_permutation 2 ["k"] rows H).
  - reflexivity.
Defined.

(** ** InnerJoiner on sorted inputs: the product of the equal-key blocks *)

Lemma yield_then_of_list {A} (rs l : list A) :
  yield_then rs (of_list l) = of_list (rs ++ l).
Proof. reflexivity. Qed.

Lemma flat_map_ext_in {A B} (f g : A -> list B) (l : list A) :
  (forall a, In a l -> f a = g a) -> flat_map f l = flat_map g l.
Proof.
  induction l as [| a l IH]; intros H; simpl; auto.
  rewrite (H a (or_introl eq_refl)), IH; auto.
  intros b Hb. apply H. now right.
Qed.

Section InnerProduct.
Variable keys : list string.
Variables sa sb : string.
Variable overlap : list string.
Variables A B : list row.
Variable kf : row -> list value.
Hypothesis HA : forall a, In a A -> key_of keys a = Ok (kf a).
Hypothesis HB : forall b, In b B -> key_of keys b = Ok (kf b).
Hypothesis Hcmp : forall a b, In a A -> In b B ->
  tuple_lt (kf a) (kf b) = Some (is_lt (tuple_compare (kf a) (kf b))).

Let le (x y : row) : Prop := tuple_compare (kf x) (kf y) <> Gt.
Let eqk (k : list value) (b : row) : bool := tuple_eq (kf b) k.
Let emit (matched : list row) (a : row) : list row :=
  inner_emit sa sb overlap a (List.filter (eqk (kf a)) matched).

(** All rows of the buffer have the key of its first row. *)
Let uniform (matched : list row) : Prop :=
  match matched with
  | [] => True
  | m :: _ => Forall (fun x => tuple_eq (kf m) (kf x) = true) matched
  end.

Lemma filter_uniform (matched : list row) (k : list value) :
  uniform matched ->
  List.filter (eqk k) matched
  = match matched with
    | [] => []
    | m :: _ => if tuple_eq (kf m) k then matched else []
    end.
Proof.
  destruct matched as [| m matched]; auto. unfold uniform.
  generalize (m :: matched) as l. intros l Hl.
  destruct (tuple_eq (kf m) k) eqn:Hm.
  - induction Hl as [| x l Hx _ IH]; simpl; auto.
    unfold eqk at 1. rewrite tuple_eq_sym in Hx.
    now rewrite (tuple_eq_trans _ _ _ Hx Hm), IH.
  - induction Hl as [| x l Hx _ IH]; simpl; auto.
    unfold eqk at 1.
    destruct (tuple_eq (kf x) k) eqn:Hxk; auto.
    now rewrite (tuple_eq_trans _ _ _ Hx Hxk) in Hm.
Qed.

Lemma buffer_holds_eq (matched : list row) (k : list value) :
  incl matched B ->
  buffer_holds keys matched k
  = Ok match matched with [] => false | m :: _ => tuple_eq (kf m) k end.
Proof.
  intros Hm. destruct matched as [| m matched]; simpl; auto.
  now rewrite (HB m (Hm m (or_introl eq_refl))).
Qed.

Lemma buffer_accepts_eq (matched : list row) (k : list value) :
  incl matched B ->
  buffer_accepts keys matched k
  = Ok match matched with [] => true | m :: _ => tuple_eq (kf m) k end.
Proof.
  intros Hm. destruct matched as [| m matched]; simpl; auto.
  now rewrite (HB m (Hm m (or_introl eq_refl))).
Qed.

Lemma emit_hit (matched : list row) (a : row) :
  uniform matched ->
  (if match matched with [] => false | m :: _ => tuple_eq (kf m) (kf a) end
   then inner_emit sa sb overlap a matched else [])
  = emit matched a.
Proof.
  intros Hu. unfold emit. rewrite filter_uniform by assumption.
  destruct matched as [| m matched]; auto.
  now destruct (tuple_eq (kf m) (kf a)).
Qed.

Lemma inner_tail_product (matched : list row) (rest_a : list row) :
  forall row_a,
    incl (row_a :: rest_a) A -> incl matched B -> uniform matched ->
    inner_tail keys sa sb overlap matched row_a rest_a
    = of_list (flat_map (emit matched) (row_a :: rest_a)).
Proof.
  induction rest_a as [| a' rest_a IH]; intros row_a Ha Hm Hu;
    rewrite inner_tail_unfold, (HA row_a (Ha row_a (or_introl eq_refl)));
    cbn [try_]; rewrite buffer_holds_eq by assumption; cbn [try_];
    rewrite emit_hit by assumption.
  - reflexivity.
  - rewrite IH; auto. intros x Hx. apply Ha. now right.
Qed.

Lemma row_le_trans (x y z : row) : le x y -> le y z -> le x z.
Proof. apply tuple_compare_le_trans. Qed.

(** Rows above a key greater than [k] do not have key [k]. *)
Lemma filter_above (k : list value) (b : row) (l : list row) :
  tuple_compare k (kf b) = Lt ->
  Forall (le b) l ->
  List.filter (eqk k) (b :: l) = [].
Proof.
  intros Hlt Hl.
  assert (H : Forall (fun x => eqk k x = false) (b :: l)).
  { assert (Hb : forall x, le b x -> eqk k x = false).
    { intros x Hx. unfold eqk. destruct (tuple_eq (kf x) k) eqn:E; auto.
      rewrite tuple_eq_sym in E. apply tuple_compare_eq in E.
      rewrite (tuple_compare_eq_l _ _ (kf b) E) in Hlt.
      unfold le in Hx. rewrite tuple_compare_antisym, Hlt in Hx.
      simpl in Hx. congruence. }
    constructor.
    - apply Hb. unfold le. now rewrite tuple_compare_refl.
    - eapply List.Forall_impl; [| exact Hl]. exact Hb. }
  induction H as [| x l' Hx _ IH]; simpl; auto. now rewrite Hx.
Qed.

(** Rows of a uniform buffer strictly below [a] do not have the key of [a]. *)
Lemma filter_below (matched : list row) (m b a : row) :
  Forall (fun x => tuple_eq (kf m) (kf x) = true) matched ->
  le m b -> tuple_eq (kf m) (kf b) = false -> le b a ->
  List.filter (eqk (kf a)) matched = [].
Proof.
  intros Hu Hmb Hne Hba.
  induction Hu as [| x l Hx _ IH]; simpl; auto.
  rewrite IH. unfold eqk at 1.
  destruct (tuple_eq (kf x) (kf a)) eqn:E; auto. exfalso.
  pose proof (tuple_eq_trans _ _ _ Hx E) as Hma.
  apply tuple_compare_eq in Hma.
  assert (Hlt : tuple_compare (kf m) (kf b) = Lt).
  { unfold le in Hmb.
    destruct (tuple_compare (kf m) (kf b)) eqn:Hc; try congruence.
    apply tuple_compare_eq in Hc. congruence. }
  rewrite (tuple_compare_eq_l _ _ (kf b) Hma) in Hlt.
  unfold le in Hba. rewrite tuple_compare_antisym, Hlt in Hba.
  simpl in Hba. congruence.
Qed.
Lemma sorted_suffix (l1 l2 : list row) :
  StronglySorted le (l1 ++ l2) -> StronglySorted le l2.
Proof.
  induction l1 as [| x l1 IH]; simpl; auto.
  intros H. apply IH. now inversion H.
Qed.

Lemma emit_app (l1 l2 : list row) (a : row) :
  List.filter (eqk (kf a)) l1 = [] -> emit (l1 ++ l2) a = emit l2 a.
Proof. intros H. unfold emit. now rewrite List.filter_app, H. Qed.

(** One turn of the branch that reads a right row: the buffer either grows
    by [row_b] or restarts with it, and no left row still to come loses a
    right row of its block. *)
Lemma buffer_step (matched : list row) (row_b : row) (rest : list row)
    (rows_a : list row) :
  uniform matched ->
  StronglySorted le (matched ++ row_b :: rest) ->
  (forall a, In a rows_a -> le row_b a) ->
  let matched' :=
    if match matched with
       | [] => true
       | m :: _ => tuple_eq (kf m) (kf row_b)
       end
    then matched ++ [row_b] else [row_b] in
  uniform matched'
  /\ StronglySorted le (matched' ++ rest)
  /\ (forall a, In a rows_a ->
                emit (matched ++ row_b :: rest) a = emit (matched' ++ rest) a).
Proof.
  intros Hu Hs Hle. destruct matched as [| m ms]; cbn zeta.
  - repeat split; auto. repeat constructor. apply tuple_eq_refl.
  - destruct (tuple_eq (kf m) (kf row_b)) eqn:Hmb.
    + rewrite <- !app_assoc. repeat split; auto.
      unfold uniform in *. cbn [app] in *. cbn [app].
      change (m :: ms ++ [row_b]) with ((m :: ms) ++ [row_b]).
      apply Forall_app. split; auto.
    + split; [| split].
      * repeat constructor. apply tuple_eq_refl.
      * now apply sorted_suffix in Hs.
      * intros a Ha. apply emit_app.
        apply filter_below with (m := m) (b := row_b); auto.
        inversion Hs as [| ? ? _ Hm]; subst.
        apply Forall_app in Hm as [_ Hm]. now inversion Hm.
Qed.

Lemma row_le_all (row_a : row) (rest_a : list row) (row_b : row) :
  StronglySorted le (row_a :: rest_a) ->
  tuple_compare (kf row_a) (kf row_b) <> Lt ->
  forall a, In a (row_a :: rest_a) -> le row_b a.
Proof.
  intros Hs Hc.
  assert (Hba : le row_b row_a).
  { unfold le. rewrite tuple_compare_antisym.
    destruct (tuple_compare (kf row_a) (kf row_b)); simpl; congruence. }
  intros a [<- | Hin]; auto.
  inversion Hs as [| ? ? _ Hrest]; subst.
  rewrite List.Forall_forall in Hrest.
  eapply row_le_trans; eauto.
Qed.

Lemma emit_lt (matched : list row) (row_a row_b : row) (rest : list row) :
  tuple_compare (kf row_a) (kf row_b) = Lt ->
  StronglySorted le (matched ++ row_b :: rest) ->
  emit (matched ++ row_b :: rest) row_a = emit matched row_a.
Proof.
  intros Hc Hs. unfold emit. rewrite List.filter_app, filter_above.
  - now rewrite app_nil_r.
  - exact Hc.
  - apply sorted_suffix in Hs. now inversion Hs.
Qed.

Lemma inner_loop_product (rest_a : list row) :
  forall row_a rest_b row_b matched,
    incl (row_a :: rest_a) A -> incl (row_b :: rest_b) B ->
    incl matched B -> uniform matched ->
    StronglySorted le (row_a :: rest_a) ->
    StronglySorted le (matched ++ row_b :: rest_b) ->
    inner_loop keys sa sb overlap row_a rest_a row_b rest_b matched
    = of_list (flat_map (emit (matched ++ row_b :: rest_b)) (row_a :: rest_a)).
Proof.
  induction rest_a as [| a' rest_a IHa]; intros row_a rest_b;
    induction rest_b as [| b' rest_b IHb];
    intros row_b matched Ha Hb Hm Hu HsA HsB;
    pose proof (Ha row_a (or_introl eq_refl)) as Hina;
    pose proof (Hb row_b (or_introl eq_refl)) as Hinb;
    rewrite inner_loop_unfold, (HA row_a Hina), (HB row_b Hinb);
    cbn [try_]; rewrite (Hcmp row_a row_b Hina Hinb);
    destruct (tuple_compare (kf row_a) (kf row_b)) eqn:Hc; cbn [is_lt].
  all: try (rewrite buffer_accepts_eq by assumption; cbn [try_];
            pose proof (row_le_all _ _ row_b HsA ltac:(congruence)) as Hle;
            destruct (buffer_step matched row_b _ _ Hu HsB Hle)
              as (Hu' & Hs' & Hemit)).
  all: try (rewrite buffer_holds_eq by assumption; cbn [try_];
            rewrite emit_hit by assumption;
            pose proof (emit_lt _ _ _ _ Hc HsB) as Hrow).
  all: cbv zeta.
  (* rest_a = [], rest_b = [] *)
  - rewrite inner_tail_product; auto.
    + f_equal. rewrite app_nil_r in Hemit. symmetry.
      now apply flat_map_ext_in.
    + apply buffer_grows; auto.
  - cbn [flat_map]. now rewrite Hrow.
  - rewrite inner_tail_product; auto.
    + f_equal. rewrite app_nil_r in Hemit. symmetry.
      now apply flat_map_ext_in.
    + apply buffer_grows; auto.
  (* rest_a = [], rest_b = b' :: rest_b *)
  - rewrite IHb; auto.
    + f_equal. symmetry. now apply flat_map_ext_in.
    + intros x Hx. apply Hb. now right.
    + apply buffer_grows; auto.
  - cbn [flat_map]. now rewrite Hrow.
  - rewrite IHb; auto.
    + f_equal. symmetry. now apply flat_map_ext_in.
    + intros x Hx. apply Hb. now right.
    + apply buffer_grows; auto.
  (* rest_a = a' :: rest_a, rest_b = [] *)
  - rewrite inner_tail_product; auto.
    + f_equal. rewrite app_nil_r in Hemit. symmetry.
      now apply flat_map_ext_in.
    + apply buffer_grows; auto.
  - rewrite IHa; auto.
    + cbn [flat_map]. now rewrite Hrow.
    + intros x Hx. apply Ha. now right.
    + now inversion HsA.
  - rewrite inner_tail_product; auto.
    + f_equal. rewrite app_nil_r in Hemit. symmetry.
      now apply flat_map_ext_in.
    + apply buffer_grows; auto.
  (* rest_a = a' :: rest_a, rest_b = b' :: rest_b *)
  - rewrite IHb; auto.
    + f_equal. symmetry. now apply flat_map_ext_in.
    + intros x Hx. apply Hb. now right.
    + apply buffer_grows; auto.
  - rewrite IHa; auto.
    + cbn [flat_map]. now rewrite Hrow.
    + intros x Hx. apply Ha. now right.
    + now inversion HsA.
  - rewrite IHb; auto.
    + f_equal. symmetry. now apply flat_map_ext_in.
    + intros x Hx. apply Hb. now right.
    + apply buffer_grows; auto.
Qed.
End InnerProduct.

Lemma sorted_weaken {T} (R R' : T -> T -> Prop) (l : list T) :
  (forall x y, In x l -> In y l -> R x y -> R' x y) ->
  StronglySorted R l -> StronglySorted R' l.
Proof.
  intros H Hs. induction Hs as [| x l Hs IH Hx]; constructor.
  - apply IH. intros a b Ha Hb. apply H; now right.
  - rewrite List.Forall_forall in *. intros y Hy.
    apply H; [now left | now right | now apply Hx].
Qed.

Lemma InnerJoiner_product_by_key :
  forall (keys : list string) (sa sb : string) (A B : list row)
         (kf : row -> list value),
    (forall a, In a A -> key_of keys a = Ok (kf a)) ->
    (forall b, In b B -> key_of keys b = Ok (kf b)) ->
    (forall a b, In a A -> In b B ->
                 tuple_lt (kf a) (kf b)
                 = Some (is_lt (tuple_compare (kf a) (kf b)))) ->
    StronglySorted (fun x y => tuple_compare (kf x) (kf y) <> Gt) A ->
    StronglySorted (fun x y => tuple_compare (kf x) (kf y) <> Gt) B ->
    let overlap :=
      match A, B with
      | a0 :: _, b0 :: _ => overlapping_columns keys a0 b0
      | _, _ => []
      end in
    InnerJoiner keys sa sb A B
    = of_list (block_product
                 (fun a b => dict_update (rename_columns overlap sa a)
                                         (rename_columns overlap sb b))
                 keys A B).
Proof.
  intros keys sa sb A B kf HA HB Hcmp HsA HsB overlap.
  unfold block_product.
  destruct A as [| row_a rest_a]; [reflexivity |].
  destruct B as [| row_b rest_b].
  { unfold InnerJoiner, done, of_list. f_equal.
    clear. induction (row_a :: rest_a) as [| a l IH]; simpl; auto.
    rewrite <- IH. unfold matching_block. now destruct (key_of keys a). }
  unfold InnerJoiner.
  rewrite (inner_loop_product keys sa sb overlap (row_a :: rest_a)
             (row_b :: rest_b) kf HA HB Hcmp);
    auto using incl_refl, incl_nil_l.
  - f_equal. apply flat_map_ext_in. intros a Ha.
    unfold inner_emit, matching_block. rewrite (HA a Ha). f_equal.
    cbn [app]. apply filter_ext_in. intros b Hb.
    unfold row_has_key. now rewrite (HB b Hb).
Qed.

(** On inputs sorted by the key columns, with key tuples that Python can
    compare, [InnerJoiner] ends normally and emits, for each left row in
    input order, its merge with every right row of the equal-key block, in
    input order: the full product of each pair of equal-key blocks, columns
    renamed with the collision set of the first rows. *)
Theorem InnerJoiner_block_product :
  forall (keys : list string) (sa sb : string) (A B : list row),
    Forall (has_keys keys) A -> Forall (has_keys keys) B ->
    (forall a b, In a A -> In b B -> comparable keys a b) ->
    StronglySorted (key_not_after keys) A ->
    StronglySorted (key_not_after keys) B ->
    let overlap :=
      match A, B with
      | a0 :: _, b0 :: _ => overlapping_columns keys a0 b0
      | _, _ => []
      end in
    InnerJoiner keys sa sb A B
    = of_list (block_product
                 (fun a b => dict_update (rename_columns overlap sa a)
                                         (rename_columns overlap sb b))
                 keys A B).
Proof.
  intros keys sa sb A B HkA HkB Hcomp HsA HsB overlap.
  set (kf := fun r => match key_of keys r with Ok k => k | Raise _ => [] end).
  assert (HA : forall a, In a A -> key_of keys a = Ok (kf a)).
  { intros a Ha. rewrite List.Forall_forall in HkA.
    destruct (key_of_total keys a (HkA a Ha)) as [k Hk].
    unfold kf. now rewrite Hk. }
  assert (HB : forall b, In b B -> key_of keys b = Ok (kf b)).
  { intros b Hb. rewrite List.Forall_forall in HkB.
    destruct (key_of_total keys b (HkB b Hb)) as [k Hk].
    unfold kf. now rewrite Hk. }
  assert (Hle : forall l, (forall x, In x l -> key_of keys x = Ok (kf x)) ->
            StronglySorted (key_not_after keys) l ->
            StronglySorted
              (fun x y => tuple_compare (kf x) (kf y) <> Gt) l).
  { intros l Hl. apply sorted_weaken.
    intros x y Hx Hy (k1 & k2 & H1 & H2 & Hc).
    rewrite (Hl x Hx) in H1. rewrite (Hl y Hy) in H2. congruence. }
  apply (InnerJoiner_product_by_key keys sa sb A B kf); auto.
  intros a b Ha Hb.
  pose proof (Hcomp a b Ha Hb (kf a) (kf b) (HA a Ha) (HB b Hb)) as Hdef.
  destruct (tuple_lt (kf a) (kf b)) as [r |] eqn:Hr; [| congruence].
  now rewrite (tuple_lt_compare _ _ _ Hr).
Qed.

Lemma InnerJoiner_block_product_witness :
  let a1 := [("k", VInt 1); ("v", VStr "a")] in
  let a2 := [("k", VInt 1); ("v", VStr "b")] in
  let a3 := [("k", VInt 3); ("v", VStr "c")] in
  let b1 := [("k", VInt 1); ("v", VStr "x")] in
  let b2 := [("k", VInt 1); ("v", VStr "y")] in
  let b3 := [("k", VInt 2); ("v", VStr "z")] in
  InnerJoiner ["k"] "_1" "_2" [a1; a2; a3] [b1; b2; b3]
  = of_list [[("k", VInt 1); ("v_1", VStr "a"); ("v_2", VStr "x")];
             [("k", VInt 1); ("v_1", VStr "a"); ("v_2", VStr "y")];
             [("k", VInt 1); ("v_1", VStr "b"); ("v_2", VStr "x")];
             [("k", VInt 1); ("v_1", VStr "b"); ("v_2", VStr "y")]].
Proof.
  intros a1 a2 a3 b1 b2 b3.
  assert (Hs : forall l : list row,
             Forall (fun r => exists z v, r = [("k", VInt z); ("v", v)]) l ->
             Forall (has_keys ["k"]) l).
  { intros l. apply List.Forall_impl. intros r (z & v & ->).
    repeat constructor. }
  assert (HA : Forall (fun r => exists z v, r = [("k", VInt z); ("v", v)])
                      [a1; a2; a3]) by (repeat constructor; eauto).
  assert (HB : Forall (fun r => exists z v, r = [("k", VInt z); ("v", v)])
                      [b1; b2; b3]) by (repeat constructor; eauto).
  rewrite (InnerJoiner_block_product ["k"] "_1" "_2" [a1; a2; a3] [b1; b2; b3]).
  - reflexivity.
  - now apply Hs.
  - now apply Hs.
  - intros a b Ha Hb ka kb Hka Hkb.
    rewrite List.Forall_forall in HA, HB.
    destruct (HA a Ha) as (z & v & ->). destruct (HB b Hb) as (z' & v' & ->).
    simpl in Hka, Hkb. injection Hka as <-. injection Hkb as <-.
    simpl. destruct (z =? z')%Z; discriminate.
  - repeat constructor;
      try (eexists _, _; repeat split; try reflexivity; discriminate).
  - repeat constructor;
      try (eexists _, _; repeat split; try reflexivity; discriminate).
Defined.

(** ** LeftJoiner and RightJoiner are mirror images up to merge order *)

Lemma drain_dual (keys : list string) (k : list value) (rest : list row) :
  forall r matched,
    left_drain keys k r rest matched = right_drain keys k r rest matched.
Proof.
  induction rest as [| r' rest IH]; intros r matched; simpl;
    destruct (key_of keys r) as [k' |]; simpl; auto;
    rewrite (tuple_eq_sym k k'); destruct (tuple_ge k k') as [[|] |]; auto.
Qed.

Lemma key_of_raises (keys : list string) (r : row) (e : exc) :
  key_of keys r = Raise e -> e = KeyError.
Proof.
  induction keys as [| k keys IH]; simpl; [discriminate |].
  unfold getitem. destruct (dict_get r k); simpl; [| congruence].
  destruct (key_of keys r); simpl; [discriminate |].
  intros H. injection H as <-. now apply IH.
Qed.

Lemma dict_get_set (d : row) (k c : string) (v : value) :
  dict_get (dict_set d k v) c
  = if String.eqb k c then Some v else dict_get d c.
Proof.
  induction d as [| [k' v'] d IH]; simpl.
  - reflexivity.
  - destruct (String.eqb_spec k' k) as [-> | Hne]; simpl.
    + now destruct (String.eqb k c).
    + rewrite IH. destruct (String.eqb_spec k' c) as [-> | Hne']; auto.
      destruct (String.eqb_spec k c); congruence.
Qed.

Lemma dict_get_absent (d : row) (c : string) :
  ~ In c (dict_keys d) -> dict_get d c = None.
Proof.
  induction d as [| [k v] d IH]; simpl; intros Hc; auto.
  destruct (String.eqb_spec k c) as [-> | Hne]; [tauto |].
  apply IH. tauto.
Qed.

Lemma dict_get_update (b : row) (c : string) :
  List.NoDup (dict_keys b) ->
  forall a,
    dict_get (dict_update a b) c
    = match dict_get b c with
      | Some v => Some v
      | None => dict_get a c
      end.
Proof.
  unfold dict_update.
  induction b as [| [k v] b IH]; intros Hnd a;
    cbn [fold_left fst snd dict_get].
  - reflexivity.
  - cbn [dict_keys map fst] in Hnd. inversion Hnd as [| ? ? Hk Hnd']; subst.
    rewrite (IH Hnd'), dict_get_set.
    destruct (String.eqb_spec k c) as [-> | Hne]; auto.
    now rewrite (dict_get_absent b c Hk).
Qed.

Section Mirror.
Variable keys : list string.
Variables A B : list row.

(** A buffered row: a row of [B] whose key tuple equals [key_a]. *)
Let buffered (key_a : list value) (b : row) : Prop :=
  In b B /\ exists kb, key_of keys b = Ok kb /\ tuple_eq key_a kb = true.

Lemma left_drain_buffered (key_a : list value) (rest_b : list row) :
  forall row_b matched row_b' rest_b' matched',
    left_drain keys key_a row_b rest_b matched
    = Ok (row_b', rest_b', matched') ->
    incl (row_b :: rest_b) B -> Forall (buffered key_a) matched ->
    incl (row_b' :: rest_b') B /\ Forall (buffered key_a) matched'.
Proof.
  induction rest_b as [| b' rest_b IH];
    intros row_b matched row_b' rest_b' matched' Hd Hb Hm;
    simpl in Hd; destruct (key_of keys row_b) as [key_b |] eqn:Hk;
    simpl in Hd; try discriminate;
    destruct (tuple_ge key_a key_b) as [[|] |]; try discriminate.
  - injection Hd as <- <- <-. split; auto.
    destruct (tuple_eq key_a key_b) eqn:He; auto.
    apply Forall_app. split; auto. constructor; [| constructor].
    split; [apply Hb; now left | eauto].
  - injection Hd as <- <- <-. auto.
  - apply IH in Hd; auto.
    + intros x Hx. apply Hb. now right.
    + destruct (tuple_eq key_a key_b) eqn:He; auto.
      apply Forall_app. split; auto. constructor; [| constructor].
      split; [apply Hb; now left | eauto].
  - injection Hd as <- <- <-. auto.
Qed.

Lemma loop_dual (rest_a : list row) :
  forall row_a row_b rest_b,
    incl (row_a :: rest_a) A -> incl (row_b :: rest_b) B ->
    raised (left_loop keys row_a rest_a row_b rest_b)
    = raised (right_loop keys row_a rest_a row_b rest_b)
    /\ Forall2 (dual_rows keys A B)
         (yielded (left_loop keys row_a rest_a row_b rest_b))
         (yielded (right_loop keys row_a rest_a row_b rest_b)).
Proof.
  assert (Hemit : forall row_a key_a matched,
             In row_a A -> key_of keys row_a = Ok key_a ->
             Forall (buffered key_a) matched ->
             Forall2 (dual_rows keys A B)
               match matched with
               | [] => [row_a]
               | _ => map (fun m => dict_update row_a m) matched
               end
               match matched with
               | [] => [row_a]
               | _ => map (fun m => dict_update m row_a) matched
               end).
  { intros row_a key_a matched Ha Hka Hm. destruct matched as [| m ms].
    - constructor; [left; auto | constructor].
    - induction Hm as [| x l [Hx (kb & Hkb & He)] _ IH]; simpl;
        constructor; auto.
      right. exists row_a, x, key_a, kb. repeat split; auto. }
  induction rest_a as [| a' rest_a IH]; intros row_a row_b rest_b Ha Hb;
    rewrite left_loop_unfold, right_loop_unfold;
    destruct (key_of keys row_a) as [key_a | e] eqn:Hka; cbn [try_];
    try (split; [reflexivity | constructor]);
    rewrite drain_dual;
    destruct (right_drain keys key_a row_b rest_b [])
      as [[[row_b' rest_b'] matched] | e] eqn:Hd; cbn [try_];
    try (split; [reflexivity | constructor]);
    rewrite <- drain_dual in Hd;
    destruct (left_drain_buffered _ _ _ _ _ _ _ Hd Hb (List.Forall_nil _))
      as [Hb' Hm].
  - split; [reflexivity |]. cbn [yield_then yielded done].
    rewrite !app_nil_r. apply (Hemit row_a key_a); auto. apply Ha. now left.
  - destruct (IH a' row_b' rest_b') as [Hr Hy]; auto.
    { intros x Hx. apply Ha. now right. }
    split; [exact Hr |]. cbn [yield_then yielded].
    apply Forall2_app; auto.
    apply (Hemit row_a key_a); auto. apply Ha. now left.
Qed.
End Mirror.

(** [left_join(A, B, K)] and [right_join(B, A, K)] end the same way and emit
    corresponding rows in the same order: a row of [A] alone on both sides,
    or the merges of the same row [a] of [A] and the same row [b] of [B]
    with equal key tuples, [{**a, **b}] from the left join and [{**b, **a}]
    from the right join.  A merge [{**x, **y}] of rows without duplicate
    columns holds the value of [y] in every column of [y] and the value of
    [x] in the others: on a column the two rows share, the left join emits
    the value of [B] and the right join the value of [A]. *)
Theorem left_right_mirror :
  forall (keys : list string) (A B : list row),
    raised (LeftJoiner keys A B) = raised (RightJoiner keys B A)
    /\ Forall2 (dual_rows keys A B)
               (yielded (LeftJoiner keys A B))
               (yielded (RightJoiner keys B A))
    /\ (forall (x y : row) (c : string),
          List.NoDup (dict_keys y) ->
          dict_get (dict_update x y) c
          = match dict_get y c with
            | Some v => Some v
            | None => dict_get x c
            end).
Proof.
  intros keys A B.
  assert (Hrun : raised (LeftJoiner keys A B) = raised (RightJoiner keys B A)
                 /\ Forall2 (dual_rows keys A B)
                            (yielded (LeftJoiner keys A B))
                            (yielded (RightJoiner keys B A))).
  { destruct A as [| row_a rest_a] eqn:HA; destruct B as [| row_b rest_b] eqn:HB;
      try (split; [reflexivity | constructor]).
    unfold LeftJoiner, RightJoiner.
    destruct (key_of keys row_b) as [key_b | e] eqn:Hb; cbn [try_].
    - apply loop_dual; apply incl_refl.
    - pose proof (key_of_raises _ _ _ Hb) as ->.
      rewrite left_loop_unfold.
      destruct (key_of keys row_a) as [key_a | e] eqn:Ha; cbn [try_].
      + assert (Hd : left_drain keys key_a row_b rest_b [] = Raise KeyError)
          by (destruct rest_b; simpl; now rewrite Hb).
        rewrite Hd. split; [reflexivity | constructor].
      + pose proof (key_of_raises _ _ _ Ha) as ->.
        split; [reflexivity | constructor]. }
  destruct Hrun as [Hr Hy]. split; [exact Hr |]. split; [exact Hy |].
  intros x y c Hnd. now apply dict_get_update.
Qed.

Lemma left_right_mirror_witness :
  let a := [("k", VInt 1); ("v", VStr "a")] in
  let b := [("k", VInt 1); ("v", VStr "x")] in
  Forall2 (dual_rows ["k"] [a] [b])
          [[("k", VInt 1); ("v", VStr "x")]]
          [[("k", VInt 1); ("v", VStr "a")]]
  /\ dict_get (dict_update a b) "v" = Some (VStr "x")
  /\ dict_get (dict_update b a) "v" = Some (VStr "a").
Proof.
  intros a b.
  pose proof (left_right_mirror ["k"] [a] [b]) as (_ & Hrows & Hcol).
  split; [exact Hrows |]. split.
  - rewrite (Hcol a b "v"); [reflexivity |].
    repeat constructor; simpl; intuition discriminate.
  - rewrite (Hcol b a "v"); [reflexivity |].
    repeat constructor; simpl; intuition discriminate.
Defined.

(** The correspondence tells the two precedences apart: on rows that share
    the column [v], the left join's row does not correspond to itself. *)
Lemma dual_rows_precedence :
  let a := [("k", VInt 1); ("v", VStr "a")] in
  let b := [("k", VInt 1); ("v", VStr "x")] in
  ~ dual_rows ["k"] [a] [b] (dict_update a b) (dict_update a b).
Proof.
  intros a b [[[H | []] _] | (a' & b' & ka & kb & Ha & Hb & _ & _ & _ & _ & H)].
  - discriminate.
  - destruct Ha as [<- | []]. destruct Hb as [<- | []]. discriminate.
Qed.

(** * Further properties of the operations *)

(** ** InnerJoiner without key columns *)

Lemma matching_block_no_keys (a : row) (B : list row) :
  matching_block [] a B = B.
Proof.
  unfold matching_block. simpl.
  induction B as [| b B IH]; simpl; auto. now rewrite IH.
Qed.

(** With an empty key list, as in [.join(InnerJoiner(), other, keys=[])],
    [InnerJoiner] emits the merge of every left row with every right row,
    left rows outermost, whatever the rows hold. *)
Theorem InnerJoiner_no_keys_cross_product :
  forall (sa sb : string) (A B : list row),
    let overlap :=
      match A, B with
      | a0 :: _, b0 :: _ => overlapping_columns [] a0 b0
      | _, _ => []
      end in
    InnerJoiner [] sa sb A B
    = of_list (flat_map
                 (fun a => map (fun b =>
                                  dict_update (rename_columns overlap sa a)
                                              (rename_columns overlap sb b)) B)
                 A).
Proof.
  intros sa sb A B overlap.
  assert (Hsorted : forall l : list row,
             StronglySorted
               (fun _ _ : row => tuple_compare [] [] <> Gt) l).
  { induction l as [| x l IH]; constructor; auto.
    apply List.Forall_forall. intros y _. discriminate. }
  rewrite (InnerJoiner_product_by_key [] sa sb A B (fun _ => []));
    auto.
  unfold block_product. f_equal. apply flat_map_ext_in.
  intros a _. now rewrite matching_block_no_keys.
Qed.

(** ** Map with the mappers that do not assign *)

Lemma gen_eta {A} (g : gen A) : Gen (yielded g) (raised g) = g.
Proof. now destruct g. Qed.

Lemma map_rows_DummyMapper (rows : list row) (e : option exc) :
  map_rows DummyMapper rows e = Gen rows e.
Proof.
  induction rows as [| r rows IH]; simpl; auto. now rewrite IH.
Qed.

(** [.map(DummyMapper())] changes nothing: the extended graph yields the
    rows of the graph it extends and ends the same way, for any graph and
    any sources. *)
Theorem map_DummyMapper_identity :
  forall (g : Graph) (kw : kwargs),
    run (graph_map g DummyMapper) kw = run g kw.
Proof.
  intros g kw. cbn [graph_map run Map].
  rewrite map_rows_DummyMapper. apply gen_eta.
Qed.

Lemma map_rows_Filter_ok (condition : row -> result bool) (p : row -> bool)
    (rows : list row) (g : gen row) :
  (forall r, In r rows -> condition r = Ok (p r)) ->
  forall e, g = map_rows (Filter condition) [] e ->
  map_rows (Filter condition) rows e
  = Gen (List.filter p rows ++ yielded g) (raised g).
Proof.
  intros Hc e ->. induction rows as [| r rows IH]; simpl; auto.
  unfold Filter at 1. rewrite (Hc r (or_introl eq_refl)). cbn [try_].
  rewrite IH by (intros x Hx; apply Hc; now right).
  destruct (p r); reflexivity.
Qed.

Lemma map_rows_Filter_raise (condition : row -> result bool) (p : row -> bool)
    (pre : list row) (r : row) (post : list row) (e : exc) (tail : option exc) :
  (forall x, In x pre -> condition x = Ok (p x)) ->
  condition r = Raise e ->
  map_rows (Filter condition) (pre ++ r :: post) tail
  = Gen (List.filter p pre) (Some e).
Proof.
  intros Hc Hr. induction pre as [| x pre IH]; simpl.
  - unfold Filter at 1. now rewrite Hr.
  - unfold Filter at 1. rewrite (Hc x (or_introl eq_refl)). cbn [try_].
    rewrite IH by (intros y Hy; apply Hc; now right).
    destruct (p x); reflexivity.
Qed.

(** [.map(Filter(condition))] keeps exactly the upstream rows on which the
    condition holds, in order, and ends as the upstream does; if the
    condition raises on a row, the rows kept before it are yielded and that
    exception ends the stream. *)
Theorem map_Filter_keeps_matching_rows :
  forall (g : Graph) (kw : kwargs) (condition : row -> result bool)
         (p : row -> bool),
    ((forall r, In r (yielded (run g kw)) -> condition r = Ok (p r)) ->
     run (graph_map g (Filter condition)) kw
     = Gen (List.filter p (yielded (run g kw))) (raised (run g kw)))
    /\ (forall pre r post e,
          yielded (run g kw) = pre ++ r :: post ->
          (forall x, In x pre -> condition x = Ok (p x)) ->
          condition r = Raise e ->
          run (graph_map g (Filter condition)) kw
          = Gen (List.filter p pre) (Some e)).
Proof.
  intros g kw condition p. split.
  - intros Hc. cbn [graph_map run Map].
    rewrite (map_rows_Filter_ok condition p _ _ Hc _ eq_refl).
    simpl. now rewrite app_nil_r.
  - intros pre r post e Hrows Hc Hr. cbn [graph_map run Map].
    rewrite Hrows. now apply map_rows_Filter_raise.
Qed.

Lemma map_Filter_keeps_matching_rows_witness :
  run (graph_map (graph_from_iter "rows")
         (Filter (fun r => Ok (dict_mem r "b"))))
      [("rows", of_list [[("a", VInt 1)]; [("b", VInt 2)]; [("a", VInt 3)]])]
  = of_list [[("b", VInt 2)]]
  /\ run (graph_map (graph_from_iter "rows")
            (Filter (fun r => match dict_get r "b" with
                              | Some v => Ok (truthy v)
                              | None => Raise KeyError
                              end)))
         [("rows", of_list [[("b", VInt 1)]; [("a", VInt 2)]; [("b", VInt 3)]])]
     = Gen [[("b", VInt 1)]] (Some KeyError).
Proof.
  split.
  - apply (proj1 (map_Filter_keeps_matching_rows (graph_from_iter "rows")
           [("rows", of_list [[("a", VInt 1)]; [("b", VInt 2)]; [("a", VInt 3)]])]
           (fun r => Ok (dict_mem r "b")) (fun r => dict_mem r "b"))).
    intros r _. reflexivity.
  - apply (proj2 (map_Filter_keeps_matching_rows (graph_from_iter "rows")
           [("rows", of_list [[("b", VInt 1)]; [("a", VInt 2)]; [("b", VInt 3)]])]
           (fun r => match dict_get r "b" with
                     | Some v => Ok (truthy v)
                     | None => Raise KeyError
                     end)
           (fun r => match dict_get r "b" with
                     | Some v => truthy v
                     | None => false
                     end))
           [[("b", VInt 1)]] [("a", VInt 2)] [[("b", VInt 3)]] KeyError).
    + reflexivity.
    + intros x [<- | []]. reflexivity.
    + reflexivity.
Defined.

(** ** Project *)

Lemma dict_mem_get (d : row) (c : string) :
  dict_mem d c = match dict_get d c with Some _ => true | None => false end.
Proof.
  induction d as [| [k v] d IH]; simpl; auto.
  now destruct (String.eqb k c).
Qed.

(** A dict built from items whose value is a function of the key. *)
Lemma dict_get_items (f : string -> value) (l : list string) (c : string) :
  forall acc,
    dict_get (dict_update acc (map (fun k => (k, f k)) l)) c
    = if str_mem c l then Some (f c) else dict_get acc c.
Proof.
  induction l as [| k l IH]; intros acc; auto.
  unfold dict_update in *. cbn [map fold_left fst snd].
  rewrite IH, dict_get_set. unfold str_mem. cbn [existsb].
  rewrite (String.eqb_sym c k).
  destruct (String.eqb k c) eqn:Hkc; cbn [orb].
  - apply String.eqb_eq in Hkc. subst.
    now destruct (existsb (String.eqb c) l).
  - reflexivity.
Qed.

Lemma str_mem_filter (p : string -> bool) (l : list string) (c : string) :
  str_mem c (List.filter p l) = str_mem c l && p c.
Proof.
  induction l as [| k l IH]; simpl; auto.
  destruct (p k) eqn:Hk; simpl; rewrite IH;
    destruct (String.eqb_spec c k) as [-> | Hne]; simpl;
    rewrite ?Hk, ?andb_false_r; auto.
Qed.

Lemma project_row_get (columns : list string) (r : row) (c : string) :
  dict_get (project_row columns r) c
  = if str_mem c columns then dict_get r c else None.
Proof.
  unfold project_row, dict_of_items.
  rewrite (dict_get_items
             (fun col => match dict_get r col with Some v => v | None => VNone end)).
  rewrite str_mem_filter, dict_mem_get. simpl.
  destruct (str_mem c columns); simpl; auto.
  now destruct (dict_get r c).
Qed.

(** [Project(columns)] yields one row that has a column exactly when the
    column is listed and present in the input, with the value of the input;
    projecting the projected row again changes nothing. *)
Theorem Project_keeps_listed_columns :
  forall (columns : list string) (r : row),
    Project columns r = of_list [project_row columns r]
    /\ (forall c, dict_get (project_row columns r) c
                  = if str_mem c columns then dict_get r c else None)
    /\ Project columns (project_row columns r) = Project columns r.
Proof.
  intros columns r. split; [reflexivity |]. split.
  - apply project_row_get.
  - unfold Project. do 2 f_equal. unfold project_row at 1 3. f_equal.
    assert (Hf : List.filter (dict_mem (project_row columns r)) columns
                 = List.filter (dict_mem r) columns).
    { apply filter_ext_in. intros c Hc.
      rewrite !dict_mem_get, project_row_get.
      now rewrite (proj2 (str_mem_In c columns) Hc). }
    rewrite Hf. apply map_ext_in. intros c Hc.
    apply filter_In in Hc as [Hc _].
    rewrite project_row_get. now rewrite (proj2 (str_mem_In c columns) Hc).
Qed.

(** ** Count adds up *)

Lemma truthy_py_eq (x y : value) : py_eq x y = true -> truthy x = truthy y.
Proof.
  destruct x as [| [] | a | s], y as [| [] | b | t];
    cbn [py_eq num_of truthy]; try discriminate; auto;
    rewrite ?Z.eqb_eq, ?String.eqb_eq; intros H; subst; auto;
    try (simpl in H; discriminate).
  all: try (rewrite <- H; reflexivity).
Qed.

Lemma all_truthy_tuple_eq (a : list value) :
  forall b, tuple_eq a b = true -> forallb truthy a = forallb truthy b.
Proof.
  induction a as [| x a IH]; intros [| y b]; simpl; try discriminate; auto.
  rewrite andb_true_iff. intros [Hxy Hab].
  now rewrite (truthy_py_eq x y Hxy), (IH b Hab).
Qed.

Lemma count_of_count_row (out : string) (gk : list string) (k : list value)
    (n : nat) :
  count_of out (count_row out gk k n) = Z.of_nat n.
Proof.
  unfold count_of, count_row. now rewrite dict_get_set, String.eqb_refl.
Qed.

Lemma total_count_app (out : string) (l1 l2 : list row) :
  total_count out (l1 ++ l2)
  = (total_count out l1 + total_count out l2)%Z.
Proof. induction l1 as [| r l1 IH]; simpl; lia. Qed.

Lemma Count_groups_total (out : string) (gk : list string) (rows : list row) :
  forall (t : list value) (acc : list row),
    total_count out
      (flat_map (fun kg =>
                   if forallb truthy (fst kg)
                   then [count_row out gk (fst kg) (List.length (snd kg))]
                   else [])
                (groupby_from tuple_eq (get_key gk) t acc rows))
    = ((if forallb truthy t then Z.of_nat (List.length acc) else 0)
       + Z.of_nat (List.length
                     (List.filter (fun r => forallb truthy (get_key gk r))
                                  rows)))%Z.
Proof.
  induction rows as [| r rows IH]; intros t acc.
  - cbn [groupby_from flat_map fst snd List.filter List.length].
    rewrite app_nil_r.
    destruct (forallb truthy t); cbn [total_count fold_right];
      rewrite ?count_of_count_row; lia.
  - cbn [groupby_from List.filter].
    destruct (tuple_eq (get_key gk r) t) eqn:Hk.
    + rewrite IH, length_app. cbn [List.length].
      rewrite (all_truthy_tuple_eq _ _ Hk).
      destruct (forallb truthy t); cbn [List.length]; lia.
    + cbn [flat_map fst snd]. rewrite total_count_app, IH.
      destruct (forallb truthy t); destruct (forallb truthy (get_key gk r));
        cbn [total_count fold_right List.length];
        rewrite ?count_of_count_row; lia.
Qed.

(** The counts emitted by [Count(out)] add up to the number of input rows
    whose grouping-key values are all truthy: no such row is lost or counted
    twice, whatever the order of the input, and the stream ends normally. *)
Theorem Count_counts_every_truthy_row :
  forall (out : string) (group_key : list string) (rows : list row),
    total_count out (yielded (Count out group_key rows))
    = Z.of_nat (List.length
                  (List.filter
                     (fun r => forallb truthy (get_key group_key r)) rows))
    /\ raised (Count out group_key rows) = None.
Proof.
  intros out gk rows. split; [| reflexivity].
  unfold Count. cbn [of_list yielded].
  destruct rows as [| r rows]; [reflexivity |].
  cbn [groupby]. rewrite Count_groups_total.
  cbn [List.filter List.length].
  destruct (forallb truthy (get_key gk r)); cbn [List.length]; lia.
Qed.

(** ** Split: what the yielded rows hold *)

Lemma dict_keys_set_present (d : row) (k : string) (v : value) :
  dict_mem d k = true -> dict_keys (dict_set d k v) = dict_keys d.
Proof.
  induction d as [| [k' v'] d IH]; simpl; [discriminate |].
  destruct (String.eqb k' k); simpl; auto.
  intros H. now rewrite IH.
Qed.

(** Whatever the separator, every row [Split] yields has the columns of the
    input row, in the same order, and the same value in every column other
    than [col]; [col] holds a string. *)
Theorem Split_touches_only_its_column :
  forall (col : string) (sep : pattern) (r : row),
    Forall (fun r' =>
              dict_keys r' = dict_keys r
              /\ (forall c, c <> col -> dict_get r' c = dict_get r c)
              /\ (dict_mem r col = true ->
                  exists token, dict_get r' col = Some (VStr token)))
           (yielded (Split col sep r)).
Proof.
  intros col sep r. unfold Split.
  destruct (dict_get r col) as [[| | | text] |] eqn:Hget;
    try (cbn [raise yielded]; constructor; fail).
  - cbn [of_list yielded]. rewrite split_loop_kept.
    apply List.Forall_forall. intros r' Hr'.
    apply in_map_iff in Hr' as (token & <- & _).
    assert (Hmem : dict_mem r col = true) by (now rewrite dict_mem_get, Hget).
    split; [now apply dict_keys_set_present |]. split.
    + intros c Hc. rewrite dict_get_set.
      destruct (String.eqb_spec col c); congruence.
    + intros _. exists (strip token).
      now rewrite dict_get_set, String.eqb_refl.
  - cbn [of_list yielded]. constructor; [| constructor].
    split; [reflexivity |]. split; [reflexivity |].
    intros Hmem. rewrite dict_mem_get, Hget in Hmem. discriminate.
Qed.

Lemma Split_touches_only_its_column_witness :
  Forall (fun r' => dict_get r' "doc_id" = Some (VInt 1))
         (yielded (Split "text" whitespace
                     [("doc_id", VInt 1); ("text", VStr "hello my  friend")])).
Proof.
  eapply List.Forall_impl;
    [| apply (Split_touches_only_its_column "text" whitespace
                [("doc_id", VInt 1); ("text", VStr "hello my  friend")])].
  intros r' (_ & Hother & _). cbv beta in Hother.
  rewrite Hother; [reflexivity | discriminate].
Defined.

Lemma append_String (x : ascii) (a b : string) :
  String.append (String x a) b = String x (String.append a b).
Proof. reflexivity. Qed.

Lemma append_nil_l (b : string) : String.append "" b = b.
Proof. reflexivity. Qed.

Lemma append_nil_r (a : string) : String.append a "" = a.
Proof.
  induction a as [| x a IH]; rewrite ?append_nil_l, ?append_String, ?IH;
    reflexivity.
Qed.

Lemma append_assoc_s (a b c : string) :
  String.append (String.append a b) c = String.append a (String.append b c).
Proof.
  induction a as [| x a IH]; rewrite ?append_nil_l, ?append_String, ?IH;
    reflexivity.
Qed.

Lemma length_append_s (a b : string) :
  String.length (String.append a b) = String.length a + String.length b.
Proof.
  induction a as [| x a IH]; rewrite ?append_nil_l, ?append_String; simpl;
    rewrite ?IH; reflexivity.
Qed.

Lemma substring_middle (pre mid s : string) :
  String.substring (String.length pre) (String.length mid)
    (String.append pre (String.append mid s)) = mid.
Proof.
  induction pre as [| x pre IH]; rewrite ?append_nil_l, ?append_String;
    simpl; auto.
  induction mid as [| y mid IHm]; rewrite ?append_nil_l, ?append_String;
    simpl.
  - now destruct s.
  - now rewrite IHm.
Qed.

Lemma all_chars_append (p : ascii -> bool) (a b : string) :
  all_chars p (String.append a b) = all_chars p a && all_chars p b.
Proof.
  induction a as [| x a IH]; rewrite ?append_nil_l, ?append_String; simpl;
    auto.
  now rewrite IH, andb_assoc.
Qed.

Lemma all_chars_list (p : ascii -> bool) (s : string) :
  all_chars p s = forallb p (list_ascii_of_string s).
Proof. induction s as [| c s IH]; simpl; congruence. Qed.

Lemma drop_while_none (p : ascii -> bool) (l : list ascii) :
  forallb (fun c => negb (p c)) l = true -> drop_while p l = l.
Proof.
  destruct l as [| c l]; simpl; auto.
  rewrite andb_true_iff. intros [Hc _].
  now destruct (p c).
Qed.

Lemma strip_no_space (s : string) : no_space s = true -> strip s = s.
Proof.
  unfold no_space, strip. rewrite all_chars_list. intros H.
  rewrite (drop_while_none is_space _ H).
  rewrite drop_while_none.
  - now rewrite rev_involutive, string_of_list_ascii_of_string.
  - rewrite forallb_forall in *. intros c Hc. apply H. now apply in_rev.
Qed.

(** The tokens kept at the matches of a one-character class: the text
    [pre ++ mid ++ s] has been read up to [s], [mid] is the part after the
    last match and holds no character of the class. *)
Lemma kept_tokens_class_free (cls : ascii -> bool) (s : string) :
  forall pre mid,
    all_chars (fun c => negb (cls c)) mid = true ->
    Forall (fun token => all_chars (fun c => negb (cls c)) token = true)
      (kept_tokens (String.append pre (String.append mid s))
         (String.length pre)
         (class_finditer cls (String.length pre + String.length mid) s)).
Proof.
  induction s as [| c s IH]; intros pre mid Hmid.
  - cbn [class_finditer kept_tokens].
    destruct (String.length pre <? _)%nat; constructor; auto.
    unfold slice. rewrite !length_append_s. simpl String.length.
    replace (String.length pre + (String.length mid + 0) - String.length pre)
      with (String.length mid) by lia.
    now rewrite substring_middle.
  - cbn [class_finditer]. destruct (cls c) eqn:Hc.
    + cbn [app kept_tokens]. apply Forall_app. split.
      * destruct (_ =? 0)%nat; constructor; auto.
        unfold slice.
        replace (String.length pre + String.length mid - String.length pre)
          with (String.length mid) by lia.
        now rewrite substring_middle.
      * specialize (IH (String.append pre (String.append mid (String c "")))
                       "" eq_refl).
        rewrite !length_append_s in IH.
        rewrite !append_assoc_s, !append_String, !append_nil_l in IH.
        simpl String.length in IH.
        replace (String.length pre + (String.length mid + 1) + 0)
          with (S (String.length pre + String.length mid)) in IH by lia.
        replace (String.length pre + (String.length mid + 1))
          with (S (String.length pre + String.length mid)) in IH by lia.
        exact IH.
    + cbn [app].
      specialize (IH pre (String.append mid (String c ""))).
      rewrite !length_append_s in IH.
      rewrite !append_assoc_s, !append_String, !append_nil_l in IH.
      simpl String.length in IH.
      replace (String.length pre + (String.length mid + 1))
        with (S (String.length pre + String.length mid)) in IH by lia.
      apply IH. rewrite all_chars_append, Hmid. simpl. now rewrite Hc.
Qed.

(** With the default separator (the class of whitespace characters) every
    token [Split] stores in [col] is free of whitespace, and is the piece of
    the text itself: trimming removes nothing. *)
Theorem Split_default_tokens_have_no_whitespace :
  forall (col : string) (r : row) (text : string),
    dict_get r col = Some (VStr text) ->
    exists tokens,
      Split col whitespace r
      = of_list (map (fun token => dict_set r col (VStr token)) tokens)
      /\ Forall (fun token => no_space token = true) tokens
      /\ sublist tokens (spec_tokens text 0 (whitespace text)).
Proof.
  intros col r text Hget.
  exists (kept_tokens text 0 (whitespace text)).
  pose proof (kept_tokens_class_free is_space text "" "" eq_refl) as Hfree.
  simpl in Hfree. fold (whitespace text) in Hfree.
  split; [| split].
  - unfold Split. rewrite Hget, split_loop_kept. f_equal.
    apply map_ext_in. intros token Hin.
    rewrite List.Forall_forall in Hfree.
    now rewrite (strip_no_space token (Hfree token Hin)).
  - exact Hfree.
  - apply kept_tokens_sub.
Qed.

Lemma Split_default_tokens_have_no_whitespace_witness :
  exists tokens,
    Split "text" whitespace [("doc_id", VInt 1); ("text", VStr " my little  world")]
    = of_list (map (fun token =>
                      dict_set [("doc_id", VInt 1);
                                ("text", VStr " my little  world")]
                               "text" (VStr token)) tokens)
    /\ Forall (fun token => no_space token = true) tokens
    /\ sublist tokens
         (spec_tokens " my little  world" 0 (whitespace " my little  world")).
Proof.
  exact (Split_default_tokens_have_no_whitespace "text"
           [("doc_id", VInt 1); ("text", VStr " my little  world")]
           " my little  world" eq_refl).
Defined.

(** ** LeftJoiner when the left keys are distinct *)

Lemma py_ge_of_lt (x y : value) (r : bool) :
  py_lt x y = Some r -> py_ge x y = Some (negb r).
Proof.
  destruct x as [| [] | p | s], y as [| [] | q | t];
    cbn [py_lt py_ge num_of]; try discriminate;
    intros H; apply (f_equal (fun o => match o with
                                       | Some b => b
                                       | None => false
                                       end)) in H;
    cbn beta iota in H; subst r; f_equal;
    try apply Z.leb_antisym.
  unfold String.ltb, String.leb. rewrite (String.compare_antisym s t).
  now destruct (String.compare t s).
Qed.

Lemma tuple_ge_of_lt (a : list value) :
  forall b r, tuple_lt a b = Some r -> tuple_ge a b = Some (negb r).
Proof.
  induction a as [| x a IH]; intros [| y b] r; simpl;
    try (intros H; injection H as <-; reflexivity).
  destruct (py_eq x y); auto using py_ge_of_lt.
Qed.

Section LeftDistinct.
Variable keys : list string.
Variables A B : list row.
Variable kf : row -> list value.
Hypothesis HA : forall a, In a A -> key_of keys a = Ok (kf a).
Hypothesis HB : forall b, In b B -> key_of keys b = Ok (kf b).
Hypothesis Hge : forall a b, In a A -> In b B ->
  tuple_ge (kf a) (kf b) = Some (negb (is_lt (tuple_compare (kf a) (kf b)))).

Let le (x y : row) : Prop := tuple_compare (kf x) (kf y) <> Gt.
Let lt (x y : row) : Prop := tuple_compare (kf x) (kf y) = Lt.
Let eqk (k : list value) (b : row) : bool := tuple_eq (kf b) k.

(** The rows of the key of [a] among the rows still to read. *)
Let block (a : row) (rows_b : list row) : list row :=
  List.filter (eqk (kf a)) rows_b.

Lemma not_eqk_below (a a' b : row) :
  tuple_compare (kf a) (kf b) <> Lt -> lt a a' -> eqk (kf a') b = false.
Proof.
  unfold lt, eqk. intros Hab Haa'.
  destruct (tuple_eq (kf b) (kf a')) eqn:E; auto. exfalso.
  apply tuple_compare_eq in E.
  pose proof (tuple_compare_eq_l _ _ (kf a) E) as H1.
  rewrite (tuple_compare_antisym (kf a) (kf a')), Haa' in H1.
  apply Hab. rewrite (tuple_compare_antisym (kf b) (kf a)), H1.
  reflexivity.
Qed.

Lemma left_drain_block (a : row) (rest_b : list row) :
  In a A ->
  forall row_b matched,
    incl (row_b :: rest_b) B ->
    StronglySorted le (row_b :: rest_b) ->
    exists row_b' rest_b',
      left_drain keys (kf a) row_b rest_b matched
      = Ok (row_b', rest_b', matched ++ block a (row_b :: rest_b))
      /\ incl (row_b' :: rest_b') B
      /\ StronglySorted le (row_b' :: rest_b')
      /\ (forall a', lt a a' ->
                     block a' (row_b' :: rest_b') = block a' (row_b :: rest_b)).
Proof.
  intros Ha.
  assert (Hhead : forall row_b matched,
             (if tuple_eq (kf a) (kf row_b) then matched ++ [row_b]
              else matched) = matched ++ block a [row_b]).
  { intros row_b matched. unfold block, eqk. cbn [List.filter].
    rewrite (tuple_eq_sym (kf row_b) (kf a)).
    destruct (tuple_eq (kf a) (kf row_b)); now rewrite ?app_nil_r. }
  assert (Hstop : forall row_b rest matched,
             tuple_compare (kf a) (kf row_b) = Lt ->
             StronglySorted le (row_b :: rest) ->
             matched = matched ++ block a (row_b :: rest)).
  { intros row_b rest matched Hc Hs. unfold block.
    rewrite (filter_above kf (kf a) row_b); [now rewrite app_nil_r | exact Hc |].
    now inversion Hs. }
  induction rest_b as [| b' rest_b IH]; intros row_b matched Hb Hs;
    pose proof (Hb row_b (or_introl eq_refl)) as Hinb;
    cbn [left_drain]; rewrite (HB row_b Hinb); cbn [bind];
    rewrite (Hge a row_b Ha Hinb);
    destruct (tuple_compare (kf a) (kf row_b)) eqn:Hc; cbn [is_lt negb].
  - exists row_b, []. rewrite Hhead. repeat split; auto.
  - exists row_b, []. rewrite <- (Hstop row_b [] matched Hc Hs).
    repeat split; auto.
  - exists row_b, []. rewrite Hhead. repeat split; auto.
  - destruct (IH b' (matched ++ block a [row_b]))
      as (row_b' & rest_b' & Hd & Hi & Hs' & Hnext);
      [ intros x Hx; apply Hb; now right | now inversion Hs | ].
    exists row_b', rest_b'. rewrite Hhead, Hd, <- app_assoc.
    split; [| split; [| split]]; auto.
    + unfold block. now rewrite <- List.filter_app.
    + intros a' Ha'. rewrite (Hnext a' Ha'). unfold block.
      cbn [List.filter].
      rewrite (not_eqk_below a a' row_b); auto; congruence.
  - exists row_b, (b' :: rest_b).
    rewrite <- (Hstop row_b (b' :: rest_b) matched Hc Hs).
    repeat split; auto.
  - destruct (IH b' (matched ++ block a [row_b]))
      as (row_b' & rest_b' & Hd & Hi & Hs' & Hnext);
      [ intros x Hx; apply Hb; now right | now inversion Hs | ].
    exists row_b', rest_b'. rewrite Hhead, Hd, <- app_assoc.
    split; [| split; [| split]]; auto.
    + unfold block. now rewrite <- List.filter_app.
    + intros a' Ha'. rewrite (Hnext a' Ha'). unfold block.
      cbn [List.filter].
      rewrite (not_eqk_below a a' row_b); auto; congruence.
Qed.

Lemma left_loop_distinct (rest_a : list row) :
  forall row_a row_b rest_b,
    incl (row_a :: rest_a) A -> incl (row_b :: rest_b) B ->
    StronglySorted lt (row_a :: rest_a) ->
    StronglySorted le (row_b :: rest_b) ->
    left_loop keys row_a rest_a row_b rest_b
    = of_list (flat_map
                 (fun a => match block a (row_b :: rest_b) with
                           | [] => [a]
                           | bl => map (fun b => dict_update a b) bl
                           end)
                 (row_a :: rest_a)).
Proof.
  induction rest_a as [| a' rest_a IH]; intros row_a row_b rest_b Ha Hb HsA HsB;
    pose proof (Ha row_a (or_introl eq_refl)) as Hina;
    rewrite left_loop_unfold, (HA row_a Hina); cbn [try_];
    destruct (left_drain_block row_a rest_b Hina row_b [] Hb HsB)
      as (row_b' & rest_b' & Hd & Hi & Hs' & Hnext);
    rewrite Hd; cbn [try_ app].
  - cbn [flat_map]. now destruct (block row_a (row_b :: rest_b)).
  - rewrite IH; auto.
    + rewrite (flat_map_ext_in
                 (fun a => match block a (row_b' :: rest_b') with
                           | [] => [a]
                           | bl => map (fun b => dict_update a b) bl
                           end)
                 (fun a => match block a (row_b :: rest_b) with
                           | [] => [a]
                           | bl => map (fun b => dict_update a b) bl
                           end)).
      * cbn [flat_map]. now destruct (block row_a (row_b :: rest_b)).
      * intros x Hx. rewrite Hnext; auto.
        inversion HsA as [| ? ? _ Hall]; subst.
        rewrite List.Forall_forall in Hall. now apply Hall.
    + intros x Hx. apply Ha. now right.
    + now inversion HsA.
Qed.
End LeftDistinct.

(** When the key tuples of the left rows are strictly increasing (no two left
    rows share a key), the right input is sorted and not empty, and the key
    tuples can be compared, [LeftJoiner] ends normally and is a left join:
    each left row is emitted merged with every right row of its key, the
    right row overwriting shared columns, or alone when no right row has its
    key. *)
Theorem LeftJoiner_distinct_left_keys :
  forall (keys : list string) (A B : list row),
    Forall (has_keys keys) A -> Forall (has_keys keys) B ->
    (forall a b, In a A -> In b B -> comparable keys a b) ->
    StronglySorted (key_before keys) A ->
    StronglySorted (key_not_after keys) B ->
    B <> [] ->
    LeftJoiner keys A B = of_list (left_join_rows keys A B).
Proof.
  intros keys A B HkA HkB Hcomp HsA HsB Hne.
  set (kf := fun r => match key_of keys r with Ok k => k | Raise _ => [] end).
  assert (HA : forall a, In a A -> key_of keys a = Ok (kf a)).
  { intros a Ha. rewrite List.Forall_forall in HkA.
    destruct (key_of_total keys a (HkA a Ha)) as [k Hk].
    unfold kf. now rewrite Hk. }
  assert (HB : forall b, In b B -> key_of keys b = Ok (kf b)).
  { intros b Hb. rewrite List.Forall_forall in HkB.
    destruct (key_of_total keys b (HkB b Hb)) as [k Hk].
    unfold kf. now rewrite Hk. }
  assert (Hge : forall a b, In a A -> In b B ->
            tuple_ge (kf a) (kf b)
            = Some (negb (is_lt (tuple_compare (kf a) (kf b))))).
  { intros a b Ha Hb.
    pose proof (Hcomp a b Ha Hb (kf a) (kf b) (HA a Ha) (HB b Hb)) as Hdef.
    destruct (tuple_lt (kf a) (kf b)) as [r |] eqn:Hr; [| congruence].
    rewrite (tuple_ge_of_lt _ _ _ Hr).
    now rewrite (tuple_lt_compare _ _ _ Hr). }
  assert (HsA' : StronglySorted
                   (fun x y => tuple_compare (kf x) (kf y) = Lt) A).
  { revert HsA. apply sorted_weaken.
    intros x y Hx Hy (k1 & k2 & H1 & H2 & Hc).
    rewrite (HA x Hx) in H1. rewrite (HA y Hy) in H2. congruence. }
  assert (HsB' : StronglySorted
                   (fun x y => tuple_compare (kf x) (kf y) <> Gt) B).
  { revert HsB. apply sorted_weaken.
    intros x y Hx Hy (k1 & k2 & H1 & H2 & Hc).
    rewrite (HB x Hx) in H1. rewrite (HB y Hy) in H2. congruence. }
  destruct B as [| row_b rest_b]; [contradiction |].
  destruct A as [| row_a rest_a]; [reflexivity |].
  unfold LeftJoiner, left_join_rows.
  rewrite (left_loop_distinct keys (row_a :: rest_a) (row_b :: rest_b) kf
             HA HB Hge); auto using incl_refl.
  f_equal. apply flat_map_ext_in. intros a Ha.
  unfold matching_block. rewrite (HA a Ha).
  assert (Hf : List.filter (fun b => tuple_eq (kf b) (kf a)) (row_b :: rest_b)
               = List.filter (row_has_key keys (kf a)) (row_b :: rest_b)).
  { apply filter_ext_in. intros b Hb. unfold row_has_key.
    now rewrite (HB b Hb). }
  now rewrite Hf.
Qed.

Lemma LeftJoiner_distinct_left_keys_witness :
  let a1 := [("k", VInt 1); ("v", VStr "a")] in
  let a2 := [("k", VInt 2); ("v", VStr "b")] in
  let a3 := [("k", VInt 4); ("v", VStr "c")] in
  let b1 := [("k", VInt 1); ("w", VStr "x")] in
  let b2 := [("k", VInt 1); ("w", VStr "y")] in
  let b3 := [("k", VInt 3); ("w", VStr "z")] in
  LeftJoiner ["k"] [a1; a2; a3] [b1; b2; b3]
  = of_list [[("k", VInt 1); ("v", VStr "a"); ("w", VStr "x")];
             [("k", VInt 1); ("v", VStr "a"); ("w", VStr "y")];
             a2; a3].
Proof.
  intros a1 a2 a3 b1 b2 b3.
  assert (Hs : forall l : list row,
             Forall (fun r => exists z c v, r = [("k", VInt z); (c, v)]) l ->
             Forall (has_keys ["k"]) l).
  { intros l. apply List.Forall_impl. intros r (z & c & v & ->).
    repeat constructor. }
  assert (HA : Forall (fun r => exists z c v, r = [("k", VInt z); (c, v)])
                      [a1; a2; a3]) by (repeat constructor; eauto).
  assert (HB : Forall (fun r => exists z c v, r = [("k", VInt z); (c, v)])
                      [b1; b2; b3]) by (repeat constructor; eauto).
  rewrite (LeftJoiner_distinct_left_keys ["k"] [a1; a2; a3] [b1; b2; b3]).
  - reflexivity.
  - now apply Hs.
  - now apply Hs.
  - intros a b Ha Hb ka kb Hka Hkb.
    rewrite List.Forall_forall in HA, HB.
    destruct (HA a Ha) as (z & c & v & ->).
    destruct (HB b Hb) as (z' & c' & v' & ->).
    simpl in Hka, Hkb. injection Hka as <-. injection Hkb as <-.
    simpl. destruct (z =? z')%Z; discriminate.
  - repeat constructor;
      try (eexists _, _; repeat split; reflexivity).
  - repeat constructor;
      try (eexists _, _; repeat split; try reflexivity; discriminate).
  - discriminate.
Defined.

(** ** Reduce: groups read lazily *)

Lemma key_of_get_key (keys : list string) (r : row) :
  has_keys keys r -> key_of keys r = Ok (get_key keys r).
Proof.
  induction 1 as [| k keys Hk _ IH]; simpl; auto.
  unfold getitem. rewrite dict_mem_get in Hk.
  destruct (dict_get r k); [| discriminate].
  simpl. now rewrite IH.
Qed.

Lemma seq_gen_done {A} (g : gen A) : seq_gen g done = g.
Proof.
  unfold seq_gen. destruct g as [ys [e |]]; simpl; auto.
  now rewrite app_nil_r.
Qed.

Section LazyGroupFacts.
Context {K : Type}.
Variable key_eqb : K -> K -> bool.
Variable keyf : row -> result K.
Variable kf : row -> K.

(** A group as [groupby] builds it: a first row, whose key is the key of the
    group, and rows with an equal key. *)
Let group_ok (kg : K * list row) : Prop :=
  exists r0 g, snd kg = r0 :: g /\ fst kg = kf r0
               /\ Forall (fun r => key_eqb (kf r) (fst kg) = true) g.

Lemma lazy_groups_pure (rows : list row) :
  (forall r, In r rows -> keyf r = Ok (kf r)) ->
  forall t acc,
    lazy_groups_from key_eqb keyf t acc rows None
    = map (fun kg => (fst kg, of_list (snd kg)))
          (groupby_from key_eqb kf t acc rows).
Proof.
  induction rows as [| r rows IH]; intros Hk t acc; simpl; auto.
  rewrite (Hk r (or_introl eq_refl)).
  destruct (key_eqb (kf r) t); simpl; rewrite IH; auto;
    intros x Hx; apply Hk; now right.
Qed.

Lemma for_groups_pure (body : K -> gen row -> gen row)
    (f : K * list row -> list row) (groups : list (K * list row)) :
  (forall kg, In kg groups -> body (fst kg) (of_list (snd kg)) = of_list (f kg)) ->
  for_groups body (map (fun kg => (fst kg, of_list (snd kg))) groups)
  = of_list (flat_map f groups).
Proof.
  induction groups as [| kg groups IH]; intros Hb; simpl; auto.
  rewrite (Hb kg (or_introl eq_refl)). simpl.
  rewrite IH by (intros x Hx; apply Hb; now right).
  reflexivity.
Qed.

Lemma groupby_from_groups (rows : list row) :
  forall t r0 acc,
    t = kf r0 ->
    Forall (fun r => key_eqb (kf r) t = true) acc ->
    Forall group_ok (groupby_from key_eqb kf t (r0 :: acc) rows).
Proof.
  induction rows as [| r rows IH]; intros t r0 acc Ht Hacc; simpl.
  - constructor; [| constructor]. exists r0, acc. simpl. auto.
  - destruct (key_eqb (kf r) t) eqn:Hr.
    + apply (IH t r0 (acc ++ [r])); auto.
      apply Forall_app. split; auto.
    + constructor.
      * exists r0, acc. simpl. auto.
      * apply (IH (kf r) r []); auto.
Qed.

Lemma groupby_from_concat (rows : list row) :
  forall t acc,
    concat (map snd (groupby_from key_eqb kf t acc rows)) = acc ++ rows.
Proof.
  induction rows as [| r rows IH]; intros t acc; simpl.
  - reflexivity.
  - destruct (key_eqb (kf r) t); simpl; rewrite IH.
    + now rewrite <- app_assoc.
    + reflexivity.
Qed.

Lemma groups_of_members (rows : list row) (t : K) (acc : list row) :
  forall kg r,
    In kg (groupby_from key_eqb kf t acc rows) -> In r (snd kg) ->
    In r (acc ++ rows).
Proof.
  intros kg r Hkg Hr. rewrite <- (groupby_from_concat rows t acc).
  apply in_concat. exists (snd kg). split; auto. now apply in_map.
Qed.
End LazyGroupFacts.

Section ReduceSelf.
Context {K : Type}.
Variable key_eqb : K -> K -> bool.
Variable kf : row -> K.

Lemma groupby_from_uniform (g : list row) :
  forall t acc,
    Forall (fun r => key_eqb (kf r) t = true) g ->
    groupby_from key_eqb kf t acc g = [(t, acc ++ g)].
Proof.
  induction g as [| r g IH]; intros t acc Hg; simpl.
  - now rewrite app_nil_r.
  - inversion Hg as [| ? ? Hr Hg']; subst.
    rewrite Hr, IH by assumption. now rewrite <- app_assoc.
Qed.

Lemma for_groups_ext (b1 b2 : K -> gen row -> gen row)
    (groups : list (K * gen row)) :
  (forall kg, In kg groups -> b1 (fst kg) (snd kg) = b2 (fst kg) (snd kg)) ->
  for_groups b1 groups = for_groups b2 groups.
Proof.
  induction groups as [| [k g] groups IH]; intros Hb; simpl; auto.
  pose proof (Hb (k, g) (or_introl eq_refl)) as Hkg. cbn [fst snd] in Hkg.
  rewrite Hkg.
  rewrite IH by (intros x Hx; apply Hb; now right).
  reflexivity.
Qed.

(** A loop over [groupby] run on a single group takes one turn. *)
Lemma for_groupby_single (keyf : row -> result K)
    (body : K -> gen row -> gen row) (r0 : row) (g : list row) :
  (forall r, In r (r0 :: g) -> keyf r = Ok (kf r)) ->
  Forall (fun r => key_eqb (kf r) (kf r0) = true) g ->
  for_groupby key_eqb keyf body (of_list (r0 :: g))
  = body (kf r0) (of_list (r0 :: g)).
Proof.
  intros Hk Hg. unfold for_groupby. cbn [of_list yielded raised].
  rewrite (Hk r0 (or_introl eq_refl)). cbn [try_].
  rewrite (lazy_groups_pure key_eqb keyf kf g)
    by (intros r Hr; apply Hk; now right).
  rewrite groupby_from_uniform by assumption.
  cbn [map fst snd for_groups app].
  change (raised (of_list ([r0] ++ g))) with (@None exc).
  change ([r0] ++ g) with (r0 :: g). cbv zeta.
  destruct (raised (body (kf r0) (of_list (r0 :: g)))); auto.
  apply seq_gen_done.
Qed.
End ReduceSelf.

(** [Reduce] with a reducer that itself loops over [groupby] on the same
    keys: cutting the stream into groups first changes nothing, on rows that
    have the key columns. *)
Lemma reduce_rows_groupby_reducer (keys : list string)
    (keyf : row -> result (list value))
    (body : list value -> gen row -> gen row) (rows : list row) :
  Forall (has_keys keys) rows ->
  (forall r, In r rows -> keyf r = Ok (get_key keys r)) ->
  reduce_rows (fun _ g => for_groupby tuple_eq keyf body g) keys
              (of_list rows)
  = for_groupby tuple_eq keyf body (of_list rows).
Proof.
  intros Hrows Hkeyf. rewrite List.Forall_forall in Hrows.
  assert (Hkey : forall r, In r rows -> key_of keys r = Ok (get_key keys r))
    by (intros r Hr; now apply key_of_get_key, Hrows).
  unfold reduce_rows, for_groupby. cbn [of_list yielded raised].
  destruct rows as [| r0 rows]; auto.
  rewrite (Hkey r0 (or_introl eq_refl)), (Hkeyf r0 (or_introl eq_refl)).
  cbn [try_].
  rewrite !(lazy_groups_pure tuple_eq _ (get_key keys) rows)
    by (intros r Hr; (apply Hkey || apply Hkeyf); now right).
  pose proof (groupby_from_groups tuple_eq (get_key keys) rows
                (get_key keys r0) r0 [] eq_refl (List.Forall_nil _)) as Hok.
  pose proof (groups_of_members tuple_eq (get_key keys) rows
                (get_key keys r0) [r0]) as Hmem.
  apply for_groups_ext. intros kg Hkg.
  apply in_map_iff in Hkg as (kg0 & <- & Hin). cbn [fst snd].
  rewrite List.Forall_forall in Hok.
  destruct (Hok kg0 Hin) as (r1 & g & Hsnd & Hfst & Hg).
  rewrite Hsnd, Hfst in *.
  apply (for_groupby_single tuple_eq (get_key keys) keyf body r1 g); auto.
  intros r Hr. apply Hkeyf. apply (Hmem kg0 r Hin). now rewrite Hsnd.
Qed.

Lemma CountReducer_of_list (out : string) (group_key : list string)
    (rows : list row) :
  CountReducer out group_key (of_list rows) = Count out group_key rows.
Proof.
  unfold CountReducer, Count, for_groupby. cbn [of_list yielded raised].
  destruct rows as [| r0 rows]; auto. cbn [try_ groupby].
  rewrite (lazy_groups_pure tuple_eq _ (get_key group_key) rows)
    by reflexivity.
  apply for_groups_pure. intros kg _. cbn [of_list raised yielded].
  now destruct (forallb truthy (fst kg)).
Qed.

(** Through [.reduce(Count(out), keys)], on rows that have the key columns,
    [Count] emits what it emits on the whole stream: [Reduce] hands it the
    groups it would cut itself. *)
Theorem Reduce_Count_is_Count :
  forall (out : string) (keys : list string) (rows : list row) (kw : kwargs),
    Forall (has_keys keys) rows ->
    Reduce (CountReducer out) keys [of_list rows] kw = Count out keys rows.
Proof.
  intros out keys rows kw Hrows. cbn [Reduce].
  rewrite <- CountReducer_of_list. unfold CountReducer at 1.
  now apply reduce_rows_groupby_reducer.
Qed.

Lemma Reduce_Count_is_Count_witness :
  Reduce (CountReducer "n") ["a"]
    [of_list [[("a", VInt 1); ("b", VInt 5)]; [("a", VInt 1)];
              [("a", VInt 0)]; [("a", VStr "x")]]] []
  = of_list [[("a", VInt 1); ("n", VInt 2)]; [("a", VStr "x"); ("n", VInt 1)]].
Proof.
  rewrite Reduce_Count_is_Count.
  - reflexivity.
  - repeat constructor.
Defined.

(** ** Sum adds up *)

Lemma sum_column_ints (column : string) (g : list row) :
  Forall (fun r => exists n, dict_get r column = Some (VInt n)) g ->
  forall n,
    sum_column column (VInt n) g None
    = Ok (VInt (n + total_count column g)).
Proof.
  induction 1 as [| r g [m Hm] _ IH]; intros n; simpl.
  - now rewrite Z.add_0_r.
  - unfold getitem, count_of. rewrite Hm. cbn [bind py_add num_of].
    rewrite IH. do 2 f_equal. lia.
Qed.

Lemma total_count_groups (column : string) (f : list value * list row -> row)
    (groups : list (list value * list row)) :
  (forall kg, In kg groups ->
              count_of column (f kg) = total_count column (snd kg)) ->
  total_count column (flat_map (fun kg => [f kg]) groups)
  = total_count column (concat (map snd groups)).
Proof.
  induction groups as [| kg groups IH]; intros Hf; simpl; auto.
  rewrite total_count_app, (Hf kg (or_introl eq_refl)), IH; auto.
  intros x Hx. apply Hf. now right.
Qed.

(** On rows that have the key columns and an integer in [column],
    [Sum(column)] ends normally and the totals it emits add up to the sum of
    [column] over the input: every row is added into exactly one total.
    Through [.reduce(Sum(column), keys)] it emits the same rows. *)
Theorem Sum_totals_add_up :
  forall (column : string) (keys : list string) (rows : list row)
         (kw : kwargs),
    Forall (has_keys keys) rows ->
    Forall (fun r => exists n, dict_get r column = Some (VInt n)) rows ->
    Reduce (Sum column) keys [of_list rows] kw
    = Sum column keys (of_list rows)
    /\ raised (Sum column keys (of_list rows)) = None
    /\ total_count column (yielded (Sum column keys (of_list rows)))
       = total_count column rows.
Proof.
  intros column keys rows kw Hkeys Hints.
  assert (Hkey : forall r, In r rows -> key_of keys r = Ok (get_key keys r)).
  { rewrite List.Forall_forall in Hkeys.
    intros r Hr. now apply key_of_get_key, Hkeys. }
  split.
  { cbn [Reduce]. unfold Sum at 1.
    now apply (reduce_rows_groupby_reducer keys (key_of keys)). }
  unfold Sum, for_groupby. cbn [of_list yielded raised].
  destruct rows as [| r0 rows]; [split; reflexivity |].
  rewrite (Hkey r0 (or_introl eq_refl)). cbn [try_].
  rewrite (lazy_groups_pure tuple_eq _ (get_key keys) rows)
    by (intros r Hr; apply Hkey; now right).
  pose proof (groups_of_members tuple_eq (get_key keys) rows
                (get_key keys r0) [r0]) as Hmem.
  rewrite (for_groups_pure _
             (fun kg => [dict_set (dict_of_items (combine keys (fst kg)))
                                  column
                                  (VInt (total_count column (snd kg)))])).
  - split; [reflexivity |]. cbn [of_list yielded].
    rewrite (total_count_groups column
               (fun kg => dict_set (dict_of_items (combine keys (fst kg)))
                                   column
                                   (VInt (total_count column (snd kg))))).
    + now rewrite groupby_from_concat.
    + intros kg _. unfold count_of.
      now rewrite dict_get_set, String.eqb_refl.
  - intros kg Hkg. cbn [of_list yielded raised].
    rewrite sum_column_ints; [reflexivity |].
    rewrite List.Forall_forall in *. intros r Hr.
    apply Hints. apply (Hmem kg r Hkg Hr).
Qed.

Lemma Sum_totals_add_up_witness :
  total_count "b"
    (yielded (Sum "b" ["a"]
                (of_list [[("a", VInt 1); ("b", VInt 2); ("c", VInt 4)];
                          [("a", VInt 1); ("b", VInt 3); ("c", VInt 5)];
                          [("a", VInt 2); ("b", VInt 7)]])))
  = total_count "b" [[("a", VInt 1); ("b", VInt 2); ("c", VInt 4)];
                     [("a", VInt 1); ("b", VInt 3); ("c", VInt 5)];
                     [("a", VInt 2); ("b", VInt 7)]].
Proof.
  apply (Sum_totals_add_up "b" ["a"]
           [[("a", VInt 1); ("b", VInt 2); ("c", VInt 4)];
            [("a", VInt 1); ("b", VInt 3); ("c", VInt 5)];
            [("a", VInt 2); ("b", VInt 7)]] []).
  - repeat constructor.
  - repeat constructor; eexists; reflexivity.
Defined.

(** ** Reduce with FirstReducer *)

Lemma first_rows_of_groups (kf : row -> list value) (rows : list row) :
  forall t a0 acc,
    flat_map (fun kg : list value * list row =>
                match snd kg with r :: _ => [r] | [] => [] end)
             (groupby_from tuple_eq kf t (a0 :: acc) rows)
    = a0 :: first_rows kf t rows.
Proof.
  induction rows as [| r rows IH]; intros t a0 acc; simpl; auto.
  destruct (tuple_eq (kf r) t); simpl.
  - apply (IH t a0 (acc ++ [r])).
  - f_equal. apply (IH (kf r) r []).
Qed.

Lemma first_rows_In (kf : row -> list value) (rows : list row) :
  forall t r, In r (first_rows kf t rows) -> In r rows.
Proof.
  induction rows as [| x rows IH]; intros t r; simpl; auto.
  destruct (tuple_eq (kf x) t); simpl.
  - intros H. right. eapply IH; eauto.
  - intros [-> | H]; auto. right. eapply IH; eauto.
Qed.

Lemma first_rows_sublist (kf : row -> list value) (rows : list row) :
  forall t, sublist (first_rows kf t rows) rows.
Proof.
  induction rows as [| x rows IH]; intros t; simpl.
  - constructor.
  - destruct (tuple_eq (kf x) t).
    + apply sublist_cons, IH.
    + apply sublist_skip, IH.
Qed.

Lemma first_rows_idempotent (kf : row -> list value) (rows : list row) :
  forall t, first_rows kf t (first_rows kf t rows) = first_rows kf t rows.
Proof.
  induction rows as [| x rows IH]; intros t; simpl; auto.
  destruct (tuple_eq (kf x) t) eqn:Hx; simpl; auto.
  now rewrite Hx, IH.
Qed.

Lemma Reduce_FirstReducer_rows (keys : list string) (rows : list row)
    (kw : kwargs) :
  Forall (has_keys keys) rows ->
  Reduce FirstReducer keys [of_list rows] kw
  = of_list match rows with
            | [] => []
            | r0 :: rows' =>
                r0 :: first_rows (get_key keys) (get_key keys r0) rows'
            end.
Proof.
  intros Hkeys.
  assert (Hkey : forall r, In r rows -> key_of keys r = Ok (get_key keys r)).
  { rewrite List.Forall_forall in Hkeys.
    intros r Hr. now apply key_of_get_key, Hkeys. }
  cbn [Reduce]. unfold reduce_rows, for_groupby.
  cbn [of_list yielded raised].
  destruct rows as [| r0 rows]; auto.
  rewrite (Hkey r0 (or_introl eq_refl)). cbn [try_].
  rewrite (lazy_groups_pure tuple_eq _ (get_key keys) rows)
    by (intros r Hr; apply Hkey; now right).
  rewrite (for_groups_pure _
             (fun kg => match snd kg with r :: _ => [r] | [] => [] end)).
  - now rewrite first_rows_of_groups.
  - intros kg _. unfold FirstReducer. cbn [of_list yielded raised].
    now destruct (snd kg).
Qed.

(** On rows that have the key columns, [.reduce(FirstReducer(), keys)] ends
    normally and yields the first row of every run of rows with equal keys:
    rows of the input, in input order, starting with its first row.
    Reducing its output again changes nothing. *)
Theorem Reduce_FirstReducer_first_of_runs :
  forall (keys : list string) (rows : list row) (kw : kwargs),
    Forall (has_keys keys) rows ->
    let out := Reduce FirstReducer keys [of_list rows] kw in
    out = of_list match rows with
                  | [] => []
                  | r0 :: rows' =>
                      r0 :: first_rows (get_key keys) (get_key keys r0) rows'
                  end
    /\ sublist (yielded out) rows
    /\ Reduce FirstReducer keys [out] kw = out.
Proof.
  intros keys rows kw Hkeys out. unfold out.
  rewrite (Reduce_FirstReducer_rows keys rows kw Hkeys).
  split; [reflexivity |]. split.
  - destruct rows as [| r0 rows]; [constructor |].
    cbn [of_list yielded]. apply sublist_skip, first_rows_sublist.
  - destruct rows as [| r0 rows]; [reflexivity |].
    rewrite Reduce_FirstReducer_rows.
    + now rewrite first_rows_idempotent.
    + rewrite List.Forall_forall in *. intros r [<- | Hr].
      * apply Hkeys. now left.
      * apply Hkeys. right. eapply first_rows_In; eauto.
Qed.

Lemma Reduce_FirstReducer_first_of_runs_witness :
  Reduce FirstReducer ["test_id"]
    [of_list [[("test_id", VInt 1); ("text", VStr "hello, world")];
              [("test_id", VInt 1); ("text", VStr "zzzz")];
              [("test_id", VInt 2); ("text", VStr "bye!")]]] []
  = of_list [[("test_id", VInt 1); ("text", VStr "hello, world")];
             [("test_id", VInt 2); ("text", VStr "bye!")]].
Proof.
  apply (proj1 (Reduce_FirstReducer_first_of_runs ["test_id"]
                  [[("test_id", VInt 1); ("text", VStr "hello, world")];
                   [("test_id", VInt 1); ("text", VStr "zzzz")];
                   [("test_id", VInt 2); ("text", VStr "bye!")]] []
                  ltac:(repeat constructor))).
Defined.

Lemma for_groups_First_key_error (keys : list string) (bad : row)
    (post : list row) (pre : list row) :
  key_of keys bad = Raise KeyError ->
  Forall (has_keys keys) pre ->
  forall t a0 acc,
    for_groups (fun _ g => FirstReducer keys g)
      (lazy_groups_from tuple_eq (key_of keys) t (a0 :: acc)
         (pre ++ bad :: post) None)
    = Gen (yielded (for_groups (fun _ g => FirstReducer keys g)
                      (lazy_groups_from tuple_eq (key_of keys) t (a0 :: acc)
                         pre None)))
          (Some KeyError).
Proof.
  intros Hbad. induction 1 as [| r pre Hr _ IH]; intros t a0 acc.
  - cbn [app lazy_groups_from]. rewrite Hbad. reflexivity.
  - cbn [app lazy_groups_from]. rewrite (key_of_get_key keys r Hr).
    destruct (tuple_eq (get_key keys r) t).
    + apply (IH t a0 (acc ++ [r])).
    + cbn [for_groups FirstReducer of_list yielded raised].
      cbv zeta. cbn [raised]. rewrite (IH (get_key keys r) r []).
      reflexivity.
Qed.

(** A row without a key column ends [.reduce(FirstReducer(), keys)] with
    [KeyError]; the rows yielded before are those of the rows before it, the
    first row of the run being read included. *)
Theorem Reduce_FirstReducer_missing_key :
  forall (keys : list string) (pre : list row) (bad : row) (post : list row)
         (kw : kwargs),
    Forall (has_keys keys) pre ->
    key_of keys bad = Raise KeyError ->
    Reduce FirstReducer keys [of_list (pre ++ bad :: post)] kw
    = Gen (yielded (Reduce FirstReducer keys [of_list pre] kw))
          (Some KeyError).
Proof.
  intros keys pre bad post kw Hpre Hbad.
  cbn [Reduce]. unfold reduce_rows, for_groupby.
  cbn [of_list yielded raised].
  destruct pre as [| r0 pre]; cbn [app].
  - now rewrite Hbad.
  - inversion Hpre as [| ? ? Hr0 Hpre']; subst.
    rewrite (key_of_get_key keys r0 Hr0). cbn [try_].
    now apply for_groups_First_key_error.
Qed.

Lemma Reduce_FirstReducer_missing_key_witness :
  Reduce FirstReducer ["a"]
    [of_list ([[("a", VInt 1)]; [("a", VInt 1)]; [("a", VInt 2)]]
              ++ [("b", VInt 0)] :: [[("a", VInt 3)]])] []
  = Gen [[("a", VInt 1)]; [("a", VInt 2)]] (Some KeyError).
Proof.
  apply (Reduce_FirstReducer_missing_key ["a"]
           [[("a", VInt 1)]; [("a", VInt 1)]; [("a", VInt 2)]]
           [("b", VInt 0)] [[("a", VInt 3)]] []).
  - repeat constructor.
  - reflexivity.
Defined.
